(** * pytato.codegen: lowering an array-expression graph to a loopy kernel

    A shallow embedding of [pytato/codegen.py] and the properties of its
    lowering pass: the generated-result variants, the lowering state, the
    graph walker ([CodeGenMapper]), the scalar expression rewriter
    ([LoopyExpressionGenMapper]) and the entry point ([generate_loopy]). *)

From stdpp Require Import gmap strings list pretty.

Open Scope string_scope.
Open Scope list_scope.
Set Warnings "-register-all,-clear-no-such-hyp".

(** ** Scalar expressions (pymbolic primitives) *)

(** The expression nodes the code builds and inspects: [prim.Variable],
    [prim.Subscript] (aggregate and index tuple), and the arithmetic nodes
    the identity mapper rebuilds child by child. *)
Inductive ScalarExpression : Type :=
| prim_Const (value : Z)
| prim_Variable (name : string)
| prim_Subscript (aggregate : ScalarExpression) (index : list ScalarExpression)
| prim_Sum (children : list ScalarExpression)
| prim_Product (children : list ScalarExpression).

(** [ShapeType]: a tuple of extents, each an integer or a symbolic
    expression.  [SymbolicIndex = ShapeType] in the source. *)
Definition ShapeType : Type := list ScalarExpression.
Definition SymbolicIndex : Type := ShapeType.

(** Induction over expressions that reaches into the child tuples. *)
Section ScalarExpression_ind.
Variable P : ScalarExpression → Prop.
Hypothesis HConst : ∀ z, P (prim_Const z).
Hypothesis HVar : ∀ n, P (prim_Variable n).
Hypothesis HSub : ∀ a idx, P a → Forall P idx → P (prim_Subscript a idx).
Hypothesis HSum : ∀ cs, Forall P cs → P (prim_Sum cs).
Hypothesis HProd : ∀ cs, Forall P cs → P (prim_Product cs).

Fixpoint ScalarExpression_deep_ind (e : ScalarExpression) : P e :=
    let all := fix all (l : list ScalarExpression) : Forall P l :=
      match l with
      | [] => Forall_nil_2 P
      | x :: l' => Forall_cons_2 P x l' (ScalarExpression_deep_ind x) (all l')
      end in
    match e with
    | prim_Const z => HConst z
    | prim_Variable n => HVar n
    | prim_Subscript a idx => HSub a idx (ScalarExpression_deep_ind a) (all idx)
    | prim_Sum cs => HSum cs (all cs)
    | prim_Product cs => HProd cs (all cs)
    end.
End ScalarExpression_ind.

(** Python dicts with string keys; [dict] of an iterable of pairs inserts
    them left to right, so for a repeated key the last pair wins. *)
Definition dict {V : Type} (pairs : list (string * V)) : gmap string V :=
  foldl (λ m kv, <[kv.1 := kv.2]> m) ∅ pairs.

(** Modelled from the spec: [pytato.scalar_expr.substitute], which is not
    among the sources.  It is the structural substitution of variables by
    name: a variable bound in the assignments is replaced by its image, every
    other node is rebuilt from its substituted children, and the images are
    not substituted again. *)
Fixpoint substitute (expression : ScalarExpression)
    (variable_assignments : gmap string ScalarExpression) : ScalarExpression :=
  match expression with
  | prim_Const z => prim_Const z
  | prim_Variable n =>
      match variable_assignments !! n with
      | Some image => image
      | None => prim_Variable n
      end
  | prim_Subscript a idx =>
      prim_Subscript (substitute a variable_assignments)
        (List.map (λ c, substitute c variable_assignments) idx)
  | prim_Sum cs =>
      prim_Sum (List.map (λ c, substitute c variable_assignments) cs)
  | prim_Product cs =>
      prim_Product (List.map (λ c, substitute c variable_assignments) cs)
  end.

(** ** Python values held in untyped attributes *)

(** A numpy dtype: its name and what [len] returns on it (the number of
    fields, 0 for a plain scalar dtype). *)
Record np_dtype : Type := { dtype_name : string; dtype_nfields : nat }.

(** The [shape] and [dtype] attributes of a generated result are plain
    Python attributes: they hold whatever the constructor call passed in that
    position, a shape tuple or a dtype. *)
Inductive PyObject : Type :=
| PyTuple (items : ShapeType)
| PyDtype (d : np_dtype).

Definition len (o : PyObject) : nat :=
  match o with
  | PyTuple items => length items
  | PyDtype d => dtype_nfields d
  end.

(** ** Exceptions and the state-and-error monad *)

Inductive Exn : Type :=
| AssertionError
| KeyError (key : string)
| NotImplementedError
| UnsupportedArrayError
| RecursionError.

Inductive Res (A : Type) : Type :=
| Ok (a : A)
| Raise (e : Exn).
Arguments Ok {A} a.
Arguments Raise {A} e.

(** A computation over a mutable object of type [S]: the object survives an
    exception in the state it had when the exception was raised. *)
Definition M (S A : Type) : Type := S → Res A * S.

Definition ret {S A} (a : A) : M S A := λ s, (Ok a, s).
Definition raise {S A} (e : Exn) : M S A := λ s, (Raise e, s).
Definition bind {S A B} (m : M S A) (k : A → M S B) : M S B :=
  λ s, match m s with
       | (Ok a, s') => k a s'
       | (Raise e, s') => (Raise e, s')
       end.
Definition get {S} : M S S := λ s, (Ok s, s).
Definition gets {S A} (f : S → A) : M S A := λ s, (Ok (f s), s).
Definition modify {S} (f : S → S) : M S unit := λ s, (Ok tt, f s).
Definition assert {S} (b : bool) : M S unit :=
  if b then ret tt else raise AssertionError.

Notation "'let*' x ':=' m 'in' k" := (bind m (λ x, k))
  (at level 10, x pattern, m at level 100, k at level 200).

(** A tuple built by a generator expression: the calls run left to right. *)
Definition mapM {S A B} (f : A → M S B) : list A → M S (list B) :=
  fix go (l : list A) : M S (list B) :=
    match l with
    | [] => ret []
    | x :: l' => let* y := f x in let* ys := go l' in ret (y :: ys)
    end.

(** ** The array expression graph *)

(** Modelled from the spec: the node classes of [pytato.array], which is not
    among the sources.  Nodes are immutable and compared by identity, so each
    carries the identity [uid] of the object; every node exposes a shape and
    a dtype.  [OtherArray] stands for a node of any variant the walker has no
    method for. *)
Inductive Array : Type :=
| Placeholder (uid : nat) (name : string) (shape : ShapeType) (dtype : np_dtype)
| Output (uid : nat) (name : string) (array : Array)
    (shape : ShapeType) (dtype : np_dtype)
| IndexLambda (uid : nat) (expr : ScalarExpression)
    (shape : ShapeType) (dtype : np_dtype) (bindings : list (string * Array))
| OtherArray (uid : nat) (shape : ShapeType) (dtype : np_dtype).

Definition Array_uid (a : Array) : nat :=
  match a with
  | Placeholder uid _ _ _ | Output uid _ _ _ _
  | IndexLambda uid _ _ _ _ | OtherArray uid _ _ => uid
  end.

Definition Array_shape (a : Array) : ShapeType :=
  match a with
  | Placeholder _ _ shape _ | Output _ _ _ shape _
  | IndexLambda _ _ shape _ _ | OtherArray _ shape _ => shape
  end.

Definition Array_dtype (a : Array) : np_dtype :=
  match a with
  | Placeholder _ _ _ dtype | Output _ _ _ _ dtype
  | IndexLambda _ _ _ dtype _ | OtherArray _ _ dtype => dtype
  end.

(** A [Mapping[str, Array]] in insertion order; keys are unique, and a lookup
    returns the binding of the key. *)
Definition Mapping : Type := list (string * Array).

Fixpoint Mapping_get (m : Mapping) (key : string) : option Array :=
  match m with
  | [] => None
  | (k, v) :: m' => if bool_decide (k = key) then Some v else Mapping_get m' key
  end.

(** [collections.ChainMap.__getitem__] over the list [maps], first map
    first. *)
Fixpoint ChainMap_get (maps : list Mapping) (key : string) : option Array :=
  match maps with
  | [] => None
  | m :: maps' =>
      match Mapping_get m key with
      | Some v => Some v
      | None => ChainMap_get maps' key
      end
  end.

(** Induction over nodes that reaches into the bindings. *)
Section Array_deep_ind.
Variable Q : Array → Prop.
Hypothesis HPlaceholder : ∀ uid name shape dtype,
  Q (Placeholder uid name shape dtype).
Hypothesis HOutput : ∀ uid name array shape dtype,
  Q array → Q (Output uid name array shape dtype).
Hypothesis HIndexLambda : ∀ uid e shape dtype bindings,
  Forall (λ kv, Q kv.2) bindings → Q (IndexLambda uid e shape dtype bindings).
Hypothesis HOther : ∀ uid shape dtype, Q (OtherArray uid shape dtype).

Fixpoint Array_deep_ind (a : Array) : Q a :=
  match a with
  | Placeholder uid name shape dtype => HPlaceholder uid name shape dtype
  | Output uid name array shape dtype =>
      HOutput uid name array shape dtype (Array_deep_ind array)
  | IndexLambda uid e shape dtype bindings =>
      HIndexLambda uid e shape dtype bindings
        ((fix all (m : list (string * Array)) : Forall (λ kv, Q kv.2) m :=
            match m with
            | [] => Forall_nil_2 _
            | kv :: m' => Forall_cons_2 _ kv m' (Array_deep_ind kv.2) (all m')
            end) bindings)
  | OtherArray uid shape dtype => HOther uid shape dtype
  end.
End Array_deep_ind.

(** ** Generated results *)

Inductive GeneratedResult : Type :=
| ArrayResult (name : string) (shape dtype : PyObject)
| LoopyExpressionResult (expr : ScalarExpression) (shape dtype : PyObject)
| SubstitutionRuleResult (shape dtype : PyObject).

Definition GeneratedResult_shape (r : GeneratedResult) : PyObject :=
  match r with
  | ArrayResult _ shape _ | LoopyExpressionResult _ shape _
  | SubstitutionRuleResult shape _ => shape
  end.

Definition GeneratedResult_dtype (r : GeneratedResult) : PyObject :=
  match r with
  | ArrayResult _ _ dtype | LoopyExpressionResult _ _ dtype
  | SubstitutionRuleResult _ dtype => dtype
  end.

Definition ndim (r : GeneratedResult) : nat := len (GeneratedResult_shape r).

(** ** The kernel under construction (loopy) *)

Record GlobalArg : Type := {
  arg_name : string;
  arg_shape : ShapeType;
  arg_dtype : np_dtype;
  arg_order : string;
  is_output_only : bool
}.

(** Modelled from the spec: the iteration domains that
    [pytato.scalar_expr.domain_for_shape], which is not among the sources,
    builds: named loop variables, the one of dimension [d] ranging over
    [0 <= i < extent d] of the shape. *)
Record Domain : Type := {
  dim_names : list string;
  dim_extents : ShapeType
}.

Definition domain_for_shape (dim_names : list string) (shape : ShapeType)
    : Domain :=
  {| dim_names := dim_names; dim_extents := shape |}.

Record Assignment : Type := {
  insn_assignees : list ScalarExpression;
  insn_expression : ScalarExpression;
  insn_id : string;
  insn_within_inames : gset string;
  insn_depends_on : gset string
}.

Record LoopKernel : Type := {
  args : list GlobalArg;
  instructions : list Assignment;
  domains : list Domain
}.

(** [pytools.UniqueNameGenerator]: the set of names handed out so far. *)
Record UniqueNameGenerator : Type := {
  existing_names : gset string
}.

(** The candidates in the order the generator tries them: [based_on], then
    [based_on_0], [based_on_1], ... *)
Definition numbered_name (based_on : string) (k : nat) : string :=
  match k with
  | 0 => based_on
  | S num => based_on +:+ "_" +:+ pretty num
  end.

(** The first candidate from number [k] on that does not conflict.  After
    [tries] conflicts the next candidate is taken as it is: with
    [tries = size existing] that candidate cannot conflict either
    ([first_unused_fresh]). *)
Fixpoint first_unused (existing : gset string) (based_on : string)
    (tries k : nat) : string :=
  let var_name := numbered_name based_on k in
  match tries with
  | 0 => var_name
  | S tries' =>
      if bool_decide (var_name ∈ existing)
      then first_unused existing based_on tries' (S k)
      else var_name
  end.

Definition UniqueNameGenerator_call (g : UniqueNameGenerator)
    (based_on : string) : string * UniqueNameGenerator :=
  let var_name :=
    first_unused (existing_names g) based_on (size (existing_names g)) 0 in
  (var_name, {| existing_names := {[var_name]} ∪ existing_names g |}).

(** ** Lowering state *)

Record CodeGenState : Type := {
  namespace : list Mapping;  (* the [maps] of the ChainMap, innermost first *)
  _kernel : LoopKernel;
  results : gmap nat GeneratedResult;  (* keyed by node identity *)
  var_name_gen : UniqueNameGenerator;
  insn_id_gen : UniqueNameGenerator
}.

Definition kernel (state : CodeGenState) : LoopKernel := _kernel state.

Definition with_kernel (k : LoopKernel) (state : CodeGenState) : CodeGenState :=
  {| namespace := namespace state; _kernel := k; results := results state;
     var_name_gen := var_name_gen state; insn_id_gen := insn_id_gen state |}.

Definition with_results (r : gmap nat GeneratedResult) (state : CodeGenState)
    : CodeGenState :=
  {| namespace := namespace state; _kernel := _kernel state; results := r;
     var_name_gen := var_name_gen state; insn_id_gen := insn_id_gen state |}.

Definition with_var_name_gen (g : UniqueNameGenerator) (state : CodeGenState)
    : CodeGenState :=
  {| namespace := namespace state; _kernel := _kernel state;
     results := results state;
     var_name_gen := g; insn_id_gen := insn_id_gen state |}.

Definition with_insn_id_gen (g : UniqueNameGenerator) (state : CodeGenState)
    : CodeGenState :=
  {| namespace := namespace state; _kernel := _kernel state;
     results := results state;
     var_name_gen := var_name_gen state; insn_id_gen := g |}.

Definition set_namespace (maps : list Mapping) (state : CodeGenState)
    : CodeGenState :=
  {| namespace := maps; _kernel := _kernel state; results := results state;
     var_name_gen := var_name_gen state; insn_id_gen := insn_id_gen state |}.

Definition update_kernel (k : LoopKernel) : M CodeGenState unit :=
  modify (with_kernel k).

(** [state.results[expr] = result] *)
Definition results_setitem (uid : nat) (r : GeneratedResult)
    : M CodeGenState unit :=
  modify (λ state, with_results (<[uid := r]> (results state)) state).

(** [state.var_name_gen(based_on)] and [state.insn_id_gen(based_on)] *)
Definition call_var_name_gen (based_on : string) : M CodeGenState string :=
  λ state,
    let (var_name, g) := UniqueNameGenerator_call (var_name_gen state) based_on in
    (Ok var_name, with_var_name_gen g state).

Definition call_insn_id_gen (based_on : string) : M CodeGenState string :=
  λ state,
    let (var_name, g) := UniqueNameGenerator_call (insn_id_gen state) based_on in
    (Ok var_name, with_insn_id_gen g state).

(** [chain_namespaces] is a generator-based context manager without a
    [try]/[finally]: the scope is pushed, the body of the [with] runs, and the
    pop after the [yield] runs only when the body returns; an exception of
    the body is thrown into the generator at the [yield] and leaves it there. *)
Definition chain_namespaces {A} (local_namespace : Mapping)
    (body : M CodeGenState A) : M CodeGenState A :=
  λ state,
    match body (set_namespace (local_namespace :: namespace state) state) with
    | (Ok a, state') => (Ok a, set_namespace (tail (namespace state')) state')
    | (Raise e, state') => (Raise e, state')
    end.

(** ** Scalar expression context *)

(** [state] is the lowering state itself, not a copy: what the rewriter does
    to [context.state] is what the walker sees in its [state] afterwards. *)
Record LoopyExpressionContext : Type := {
  state : CodeGenState;
  _depends_on : gset string;
  reduction_bounds : list (string * (ScalarExpression * ScalarExpression))
}.

Definition depends_on (context : LoopyExpressionContext) : gset string :=
  _depends_on context.

Definition update_depends_on (other : gset string)
    : M LoopyExpressionContext unit :=
  modify (λ context,
    {| state := state context;
       _depends_on := _depends_on context ∪ other;
       reduction_bounds := reduction_bounds context |}).

(** [make_expression_context()] with its default arguments. *)
Definition make_expression_context (st : CodeGenState)
    : LoopyExpressionContext :=
  {| state := st; _depends_on := ∅; reduction_bounds := [] |}.

(** Run a computation on a context of the state; the walker goes on with the
    state the context refers to. *)
Definition with_context {A} (m : M LoopyExpressionContext A)
    : M CodeGenState (A * LoopyExpressionContext) :=
  λ st,
    match m (make_expression_context st) with
    | (Ok a, context) => (Ok (a, context), state context)
    | (Raise e, context) => (Raise e, state context)
    end.

Definition with_state (st : CodeGenState) (context : LoopyExpressionContext)
    : LoopyExpressionContext :=
  {| state := st; _depends_on := _depends_on context;
     reduction_bounds := reduction_bounds context |}.

(** Run a walker computation on [context.state]. *)
Definition on_state {A} (m : M CodeGenState A) : M LoopyExpressionContext A :=
  λ context,
    let (r, st) := m (state context) in (r, with_state st context).

(** [context.namespace[name]] *)
Definition namespace_getitem (name : string)
    : M LoopyExpressionContext Array :=
  λ context,
    match ChainMap_get (namespace (state context)) name with
    | Some a => (Ok a, context)
    | None => (Raise (KeyError name), context)
    end.

(** ** Rendering a generated result at an index tuple *)

Definition dim_placeholder (d : nat) : string := "_" +:+ pretty d.

Definition to_loopy_expression (self : GeneratedResult)
    (indices : SymbolicIndex) : M LoopyExpressionContext ScalarExpression :=
  match self with
  | ArrayResult name _ _ =>
      match indices with
      | [] => ret (prim_Variable name)
      | _ :: _ => ret (prim_Subscript (prim_Variable name) indices)
      end
  | LoopyExpressionResult expr _ _ =>
      ret (substitute expr
             (dict (zip (dim_placeholder <$> seq 0 (ndim self)) indices)))
  | SubstitutionRuleResult _ _ => raise NotImplementedError
  end.

(** ** The rewriter and the walker *)

Section Mappers.
  (** [codegen_mapper]: the walker, as the rewriter calls it back. *)
Variable codegen_mapper : Array → M CodeGenState GeneratedResult.

  (** [LoopyExpressionGenMapper.rec]: [map_variable] and [map_subscript] are
      the methods of the source; constants, sums and products go through the
      identity mapper, which rebuilds the node from its rewritten children. *)
Fixpoint LoopyExpressionGenMapper_rec (expr : ScalarExpression)
      : M LoopyExpressionContext ScalarExpression :=
    match expr with
    | prim_Const z => ret (prim_Const z)
    | prim_Variable name =>
        let* node := namespace_getitem name in
        let* result := on_state (codegen_mapper node) in
        to_loopy_expression result []
    | prim_Subscript aggregate index =>
        match aggregate with
        | prim_Variable name =>
            let* node := namespace_getitem name in
            let* result := on_state (codegen_mapper node) in
            to_loopy_expression result index
        | _ => raise AssertionError
        end
    | prim_Sum children =>
        let* children' := mapM LoopyExpressionGenMapper_rec children in
        ret (prim_Sum children')
    | prim_Product children =>
        let* children' := mapM LoopyExpressionGenMapper_rec children in
        ret (prim_Product children')
    end.

Definition map_placeholder (uid : nat) (name : string) (shape : ShapeType)
      (dtype : np_dtype) : M CodeGenState GeneratedResult :=
    let* cached := gets (λ st, results st !! uid) in
    match cached with
    | Some r => ret r
    | None =>
        let arg := {| arg_name := name; arg_shape := shape; arg_dtype := dtype;
                      arg_order := "C"; is_output_only := false |} in
        let* k := gets kernel in
        let* _ := update_kernel
          {| args := args k ++ [arg]; instructions := instructions k;
             domains := domains k |} in
        let result := ArrayResult name (PyDtype dtype) (PyTuple shape) in
        let* _ := results_setitem uid result in
        ret result
    end.

Definition map_output (uid : nat) (name : string) (array : Array)
      (shape : ShapeType) (dtype : np_dtype) : M CodeGenState GeneratedResult :=
    let* cached := gets (λ st, results st !! uid) in
    match cached with
    | Some r => ret r
    | None =>
        let* _ := assert (negb (bool_decide (length shape = 0))) in
        let* inner_result := codegen_mapper array in
        let* inames :=
          mapM (λ d, call_var_name_gen (name +:+ "_dim" +:+ pretty d))
               (seq 0 (length shape)) in
        let domain := domain_for_shape inames shape in
        let arg := {| arg_name := name; arg_shape := shape; arg_dtype := dtype;
                      arg_order := "C"; is_output_only := true |} in
        let indices := prim_Variable <$> inames in
        let* rendered :=
          with_context (to_loopy_expression inner_result indices) in
        let copy_expr := rendered.1 in
        let context := rendered.2 in
        let* _ := assert (bool_decide (reduction_bounds context = [])) in
        let* _ := assert (bool_decide (depends_on context = ∅)) in
        let* id := call_insn_id_gen (name +:+ "_copy") in
        let insn :=
          {| insn_assignees := [prim_Subscript (prim_Variable name) indices];
             insn_expression := copy_expr;
             insn_id := id;
             insn_within_inames := list_to_set inames;
             insn_depends_on := depends_on context |} in
        let* k := gets kernel in
        let* _ := update_kernel
          {| args := args k ++ [arg];
             instructions := instructions k ++ [insn];
             domains := domains k ++ [domain] |} in
        let result := ArrayResult name (PyDtype dtype) (PyTuple shape) in
        let* _ := results_setitem uid result in
        ret result
    end.

Definition map_index_lambda (uid : nat) (expr : ScalarExpression)
      (shape : ShapeType) (dtype : np_dtype) (bindings : Mapping)
      : M CodeGenState GeneratedResult :=
    let* cached := gets (λ st, results st !! uid) in
    match cached with
    | Some r => ret r
    | None =>
        let* rewritten :=
          chain_namespaces bindings
            (with_context (LoopyExpressionGenMapper_rec expr)) in
        let loopy_expr := rewritten.1 in
        let result :=
          LoopyExpressionResult loopy_expr (PyTuple shape) (PyDtype dtype) in
        let* _ := results_setitem uid result in
        ret result
    end.
End Mappers.

(** [CodeGenMapper.rec]: dispatch on the node's variant.  Modelled from the
    spec: the dispatch of [pytato.transform.Mapper], which is not among the
    sources, fails on a variant without a method.  [fuel] bounds the depth of
    the Python recursion; running out of it is a [RecursionError]. *)
Fixpoint CodeGenMapper_rec (fuel : nat) (expr : Array)
    : M CodeGenState GeneratedResult :=
  match fuel with
  | 0 => raise RecursionError
  | S fuel' =>
      match expr with
      | Placeholder uid name shape dtype =>
          map_placeholder uid name shape dtype
      | Output uid name array shape dtype =>
          map_output (CodeGenMapper_rec fuel') uid name array shape dtype
      | IndexLambda uid e shape dtype bindings =>
          map_index_lambda (CodeGenMapper_rec fuel') uid e shape dtype bindings
      | OtherArray _ _ _ => raise UnsupportedArrayError
      end
  end.

(** [LoopyExpressionGenMapper.__call__] *)
Definition LoopyExpressionGenMapper_call (fuel : nat) (expr : ScalarExpression)
    : M LoopyExpressionContext ScalarExpression :=
  LoopyExpressionGenMapper_rec (CodeGenMapper_rec fuel) expr.

(** ** The entry point *)

(** Modelled from the spec: [pytato.array.Namespace] and
    [pytato.array.DictOfNamedArrays], which are not among the sources.  A
    namespace is the name-to-node mapping of one computation, in insertion
    order; a dict of named arrays knows the namespace its arrays live in, and
    so does a single array (its [namespace] attribute). *)
Definition Namespace : Type := Mapping.

Record DictOfNamedArrays : Type := {
  data : Mapping;
  arrays_namespace : Namespace
}.

Inductive GraphInput : Type :=
| FromNamespace (ns : Namespace)
| FromArray (a : Array) (ns : Namespace)
| FromDictOfNamedArrays (arrays : DictOfNamedArrays).

(** Modelled from the spec: [pytato.transform.CopyMapper] and
    [copy_namespace], which are not among the sources, copy the graph into a
    fresh namespace and preserve sharing: the copy has one node per node of
    the original, so a copied node is identified with its original. *)
Definition copy_mapper (a : Array) : Array := a.
Definition copy_namespace (ns : Namespace) : Namespace :=
  (λ kv, (kv.1, copy_mapper kv.2)) <$> ns.

(** The largest identity among a node and the nodes below it: an object
    created later is distinct from all of them. *)
Fixpoint max_uid (a : Array) : nat :=
  match a with
  | Placeholder uid _ _ _ => uid
  | Output uid _ array _ _ => uid `max` max_uid array
  | IndexLambda uid _ _ _ bindings =>
      uid `max` foldr (λ kv acc, max_uid kv.2 `max` acc) 0 bindings
  | OtherArray uid _ _ => uid
  end.

Definition Mapping_max_uid (m : Mapping) : nat :=
  foldr (λ kv acc, max_uid kv.2 `max` acc) 0 m.

(** Modelled from the spec: the constructor of [pytato.array.Output], which
    is not among the sources, makes a node that wraps [array], has its shape
    and dtype, and is bound to [name] in the namespace. [uid] is the identity
    of the new object. *)
Definition new_Output (ns : Namespace) (uid : nat) (name : string)
    (array : Array) : Namespace :=
  ns ++ [(name, Output uid name array (Array_shape array) (Array_dtype array))].

(** The loop of [_promote_named_arrays_to_outputs] over [arrays.items()]. *)
Fixpoint promote_items (items : Mapping) (result : Namespace)
    (name_gen : UniqueNameGenerator) (next_uid : nat) : Namespace :=
  match items with
  | [] => result
  | (name, val) :: items' =>
      let (out_name, name_gen') := UniqueNameGenerator_call name_gen name in
      promote_items items'
        (new_Output result next_uid out_name (copy_mapper val))
        name_gen' (S next_uid)
  end.

Definition _promote_named_arrays_to_outputs (arrays : DictOfNamedArrays)
    : Namespace :=
  let result := copy_namespace (arrays_namespace arrays) in
  let name_gen := {| existing_names := list_to_set result.*1 |} in
  promote_items (data arrays) result name_gen
    (S (Mapping_max_uid (arrays_namespace arrays)
        `max` Mapping_max_uid (data arrays))).

Inductive Target : Type :=
| PyOpenCLTarget
| OtherTarget (name : string).

Record BoundProgram : Type := {
  program : LoopKernel;
  bound_arguments : list (string * PyObject);
  target : Target
}.

(** [lp.make_kernel("{:}", [])]: no arguments, no instructions, and the one
    domain without loop variables. *)
Definition empty_kernel : LoopKernel :=
  {| args := []; instructions := [];
     domains := [ {| dim_names := []; dim_extents := [] |} ] |}.

(** [CodeGenState(namespace=ChainMap(namespace), _kernel=kernel,
    results=dict())]; [__post_init__] takes both generators from the kernel,
    which has no variable names yet. *)
Definition initial_state (ns : Namespace) : CodeGenState :=
  {| namespace := [ns]; _kernel := empty_kernel; results := ∅;
     var_name_gen := {| existing_names := ∅ |};
     insn_id_gen := {| existing_names := ∅ |} |}.

(** The first two steps of [generate_loopy]: what the input is turned into
    before lowering. *)
Definition get_namespace (result_or_namespace : GraphInput) : Namespace :=
  let result_or_namespace :=
    match result_or_namespace with
    | FromArray a ns =>
        FromDictOfNamedArrays {| data := [("out", a)]; arrays_namespace := ns |}
    | other => other
    end in
  match result_or_namespace with
  | FromDictOfNamedArrays arrays => _promote_named_arrays_to_outputs arrays
  | FromNamespace ns => ns
  | FromArray _ ns => ns
  end.

(** The state after the loop over [namespace.items()]. *)
Definition lower_namespace (fuel : nat) (ns : Namespace)
    : Res (list GeneratedResult) * CodeGenState :=
  mapM (λ kv, CodeGenMapper_rec fuel kv.2) ns (initial_state ns).

Definition generate_loopy (fuel : nat) (result_or_namespace : GraphInput)
    (target : option Target) : Res BoundProgram :=
  let ns := get_namespace result_or_namespace in
  let target := default PyOpenCLTarget target in
  match lower_namespace fuel ns with
  | (Ok _, st) =>
      Ok {| program := kernel st; bound_arguments := []; target := target |}
  | (Raise e, _) => Raise e
  end.

(** ** Scenarios *)

Definition float64 : np_dtype := {| dtype_name := "float64"; dtype_nfields := 0 |}.

Definition x10 : Array := Placeholder 1 "x" [prim_Const 10] float64.

Definition a_plus_b : Array :=
  IndexLambda 3
    (prim_Sum [prim_Subscript (prim_Variable "a") [prim_Variable "_0"];
               prim_Subscript (prim_Variable "b") [prim_Variable "_0"]])
    [prim_Const 5] float64
    [("a", Placeholder 1 "a" [prim_Const 5] float64);
     ("b", Placeholder 2 "b" [prim_Const 5] float64)].

Definition unbound_lambda : Array :=
  IndexLambda 7 (prim_Variable "z") [prim_Const 4] float64 [].

Definition scalar_output : Array := Output 9 "s" x10 [] float64.

(** * Vocabulary of the properties *)

(** [wp m Q s]: running [m] from [s] ends, with a result or an exception, in
    a state that together with it satisfies [Q]. *)
Definition wp {S A} (m : M S A) (Q : Res A → S → Prop) (s : S) : Prop :=
  Q (m s).1 (m s).2.

(** What [map_placeholder] does to the state on a first visit. *)
Definition placeholder_visited (uid : nat) (name : string) (shape : ShapeType)
    (dtype : np_dtype) (st : CodeGenState) : CodeGenState :=
  with_results
    (<[uid := ArrayResult name (PyDtype dtype) (PyTuple shape)]> (results st))
    (with_kernel
       {| args := args (kernel st) ++
                  [ {| arg_name := name; arg_shape := shape; arg_dtype := dtype;
                       arg_order := "C"; is_output_only := false |} ];
          instructions := instructions (kernel st);
          domains := domains (kernel st) |} st).

(** The variants [CodeGenMapper] has a method for. *)
Definition has_method (a : Array) : Prop :=
  match a with
  | OtherArray _ _ _ => False
  | _ => True
  end.

(** The claim's reading of the rendering: [index_for name d indices] is the
    index that the variable [name] stands for when [indices] are the indices
    of the dimensions from [d] on, and [substitute_dims] replaces, through
    the whole expression, each such variable by its index. *)
Fixpoint index_for (name : string) (d : nat) (indices : SymbolicIndex)
    : option ScalarExpression :=
  match indices with
  | [] => None
  | i :: rest =>
      if bool_decide (name = dim_placeholder d) then Some i
      else index_for name (S d) rest
  end.

Fixpoint substitute_dims (indices : SymbolicIndex) (e : ScalarExpression)
    : ScalarExpression :=
  match e with
  | prim_Const z => prim_Const z
  | prim_Variable name => default (prim_Variable name) (index_for name 0 indices)
  | prim_Subscript a idx =>
      prim_Subscript (substitute_dims indices a)
        (List.map (substitute_dims indices) idx)
  | prim_Sum cs => prim_Sum (List.map (substitute_dims indices) cs)
  | prim_Product cs => prim_Product (List.map (substitute_dims indices) cs)
  end.

Definition row_plus_col : ScalarExpression :=
  prim_Sum [prim_Variable "_0"; prim_Product [prim_Variable "_1"; prim_Variable "k"]].

(** The copy instruction and the buffer argument [map_output] builds, and
    the state it leaves. *)
Definition output_arg (name : string) (shape : ShapeType) (dtype : np_dtype)
    : GlobalArg :=
  {| arg_name := name; arg_shape := shape; arg_dtype := dtype;
     arg_order := "C"; is_output_only := true |}.

Definition copy_insn (name : string) (inames : list string)
    (copy_expr : ScalarExpression) (id : string) : Assignment :=
  {| insn_assignees :=
       [prim_Subscript (prim_Variable name) (prim_Variable <$> inames)];
     insn_expression := copy_expr;
     insn_id := id;
     insn_within_inames := list_to_set inames;
     insn_depends_on := ∅ |}.

Definition output_visited (uid : nat) (name : string) (shape : ShapeType)
    (dtype : np_dtype) (inames : list string) (copy_expr : ScalarExpression)
    (id : string) (st : CodeGenState) : CodeGenState :=
  with_results
    (<[uid := ArrayResult name (PyDtype dtype) (PyTuple shape)]> (results st))
    (with_kernel
       {| args := args (kernel st) ++ [output_arg name shape dtype];
          instructions :=
            instructions (kernel st) ++ [copy_insn name inames copy_expr id];
          domains := domains (kernel st) ++ [domain_for_shape inames shape] |}
       st).

Definition index_lambda_visited (uid : nat) (loopy_expr : ScalarExpression)
    (shape : ShapeType) (dtype : np_dtype) (st : CodeGenState) : CodeGenState :=
  with_results
    (<[uid := LoopyExpressionResult loopy_expr (PyTuple shape) (PyDtype dtype)]>
       (results st)) st.

(** [Array_Forall P a]: [P] holds of [a] and of every node below it. *)
Fixpoint Array_Forall (P : Array → Prop) (a : Array) : Prop :=
  P a ∧
  match a with
  | Output _ _ array _ _ => Array_Forall P array
  | IndexLambda _ _ _ _ bindings =>
      foldr (λ kv acc, Array_Forall P kv.2 ∧ acc) True bindings
  | _ => True
  end.

Definition Mapping_Forall (P : Array → Prop) (m : Mapping) : Prop :=
  Forall (λ kv, Array_Forall P kv.2) m.

Definition chain_Forall (P : Array → Prop) (maps : list Mapping) : Prop :=
  Forall (Mapping_Forall P) maps.

(** What a returning call keeps, relative to the state it started from: the
    namespace chain, a property [P] of all nodes in the chain, and a property
    [I] of the state. *)
Definition kept (P : Array → Prop) (I : CodeGenState → Prop)
    (st0 st : CodeGenState) : Prop :=
  namespace st = namespace st0 ∧ chain_Forall P (namespace st) ∧ I st.

Definition kept_context (P : Array → Prop) (I : CodeGenState → Prop)
    (context0 context : LoopyExpressionContext) : Prop :=
  kept P I (state context0) (state context)
  ∧ _depends_on context = _depends_on context0
  ∧ reduction_bounds context = reduction_bounds context0.

Definition out_x10 : Array := Output 2 "out" x10 [prim_Const 10] float64.

(** The names an expression makes the rewriter resolve. *)
Fixpoint references (e : ScalarExpression) : list string :=
  match e with
  | prim_Const _ => []
  | prim_Variable name => [name]
  | prim_Subscript (prim_Variable name) _ => [name]
  | prim_Subscript _ _ => []
  | prim_Sum cs => concat (List.map references cs)
  | prim_Product cs => concat (List.map references cs)
  end.

(** The name resolves to a node that has been lowered. *)
Definition lowered_before (st : CodeGenState) (name : string) : Prop :=
  ∃ a r, ChainMap_get (namespace st) name = Some a
         ∧ has_method a ∧ results st !! Array_uid a = Some r.

Definition two_placeholders : Mapping :=
  [("a", Placeholder 1 "a" [prim_Const 5] float64);
   ("b", Placeholder 2 "b" [prim_Const 5] float64)].

Definition sum_of_a_and_b : ScalarExpression :=
  prim_Sum [prim_Subscript (prim_Variable "a") [prim_Variable "_0"];
            prim_Subscript (prim_Variable "b") [prim_Variable "_0"]].

(** The state in which both placeholders have been lowered. *)
Definition after_two_placeholders : CodeGenState :=
  (lower_namespace 1 two_placeholders).2.

Definition no_dependencies (st : CodeGenState) : Prop :=
  Forall (λ insn, insn_depends_on insn = ∅) (instructions (kernel st)).

Definition namespace_x10 : Namespace := [("x", x10)].

Definition placeholder_named_out : Array :=
  Placeholder 1 "out" [prim_Const 10] float64.

Definition namespace_with_out : Namespace := [("out", placeholder_named_out)].











(** [grows st st']: the chain of [st'] is the chain of [st] with scopes
    pushed in front. *)
Definition grows (st st' : CodeGenState) : Prop :=
  ∃ extra, namespace st' = extra ++ namespace st.

(** [always P I st]: [P] holds of every node of the namespace chain of [st],
    and [I] of [st]. *)
Definition always (P : Array → Prop) (I : CodeGenState → Prop)
    (st : CodeGenState) : Prop :=
  chain_Forall P (namespace st) ∧ I st.

(** The state [st] extends [st0]: the kernel of [st0] is a prefix of the
    kernel of [st], list by list. *)
Definition kernel_extends (st0 st : CodeGenState) : Prop :=
  args (kernel st0) `prefix_of` args (kernel st)
  ∧ instructions (kernel st0) `prefix_of` instructions (kernel st)
  ∧ domains (kernel st0) `prefix_of` domains (kernel st).

(** Nothing [st0] remembers is forgotten in [st]: the nodes in the cache and
    the names both generators have handed out. *)
Definition memory_extends (st0 st : CodeGenState) : Prop :=
  dom (results st0) ⊆ dom (results st)
  ∧ existing_names (var_name_gen st0) ⊆ existing_names (var_name_gen st)
  ∧ existing_names (insn_id_gen st0) ⊆ existing_names (insn_id_gen st).

(** The output-only buffer arguments of a kernel, in order. *)
Definition output_args (k : LoopKernel) : list GlobalArg :=
  filter (λ arg, is_output_only arg = true) (args k).

(** The instruction [insn] copies into the buffer [arg] over the domain
    [dom]: the buffer has at least one dimension, the domain has one loop
    variable per dimension with the extents of the buffer's shape, and the
    instruction assigns to the buffer subscripted by the loop variables in
    order and runs within exactly them. *)
Definition copies_into (arg : GlobalArg) (dom : Domain) (insn : Assignment)
    : Prop :=
  arg_shape arg ≠ []
  ∧ dim_extents dom = arg_shape arg
  ∧ length (dim_names dom) = length (arg_shape arg)
  ∧ insn_assignees insn
    = [prim_Subscript (prim_Variable (arg_name arg))
         (prim_Variable <$> dim_names dom)]
  ∧ insn_within_inames insn = list_to_set (dim_names dom).

(** The output buffers, the domains after the first and the instructions of
    a kernel go together, one to one and in order. *)
Definition kernel_paired (k : LoopKernel) : Prop :=
  domains k ≠ []
  ∧ Forall3 copies_into (output_args k) (tail (domains k)) (instructions k).




(** The namespace entry [entry] is an [Output] of the array of [kv], with
    the array's shape and dtype, bound to the name the node carries. *)
Definition wraps (kv entry : string * Array) : Prop :=
  ∃ uid, entry.2 = Output uid entry.1 kv.2 (Array_shape kv.2) (Array_dtype kv.2).

(** The index tuple made of the reserved placeholder variables of the first
    [n] dimensions. *)
Definition own_placeholders (n : nat) : SymbolicIndex :=
  (λ d, prim_Variable (dim_placeholder d)) <$> seq 0 n.

Definition out_a_plus_b : Array :=
  Output 4 "out" a_plus_b [prim_Const 5] float64.

(** The name a placeholder or an output carries. *)
Definition Array_name (a : Array) : string :=
  match a with
  | Placeholder _ name _ _ | Output _ name _ _ _ => name
  | _ => ""
  end.

Definition is_Placeholder (a : Array) : Prop :=
  match a with
  | Placeholder _ _ _ _ => True
  | _ => False
  end.

(** The buffer argument [map_placeholder] builds. *)
Definition input_arg (a : Array) : GlobalArg :=
  {| arg_name := Array_name a; arg_shape := Array_shape a;
     arg_dtype := Array_dtype a; arg_order := "C"; is_output_only := false |}.

(** The names the loop variables of the output [name] are based on. *)
Definition dim_names_of (name : string) (n : nat) : list string :=
  (λ d, name +:+ "_dim" +:+ pretty d) <$> seq 0 n.

(** * Properties *)

(** ** Reasoning about computations *)

Lemma wp_ret {S A} (a : A) (Q : Res A → S → Prop) s :
  Q (Ok a) s → wp (ret a) Q s.
Proof. done. Qed.

Lemma wp_raise {S A} e (Q : Res A → S → Prop) s :
  Q (Raise e) s → wp (raise e) Q s.
Proof. done. Qed.

Lemma wp_bind {S A B} (m : M S A) (k : A → M S B) (Q : Res B → S → Prop) s :
  wp m (λ r s', match r with
                | Ok a => wp (k a) Q s'
                | Raise e => Q (Raise e) s'
                end) s →
  wp (bind m k) Q s.
Proof. unfold wp, bind. by destruct (m s) as [[a|e] s']. Qed.

Lemma wp_bind_run {S A B} (m : M S A) (k : A → M S B)
    (Q : Res B → S → Prop) s :
  (∀ a s', m s = (Ok a, s') → wp (k a) Q s') →
  (∀ e s', m s = (Raise e, s') → Q (Raise e) s') →
  wp (bind m k) Q s.
Proof.
  intros Hok Hraise. unfold wp, bind in *.
  destruct (m s) as [[a|e] s']; [by apply Hok | by apply Hraise].
Qed.

Lemma wp_mono {S A} (m : M S A) (Q Q' : Res A → S → Prop) s :
  (∀ r s', Q r s' → Q' r s') → wp m Q s → wp m Q' s.
Proof. unfold wp. auto. Qed.

Lemma wp_gets {S A} (f : S → A) (Q : Res A → S → Prop) s :
  Q (Ok (f s)) s → wp (gets f) Q s.
Proof. done. Qed.

Lemma wp_modify {S} (f : S → S) (Q : Res unit → S → Prop) s :
  Q (Ok tt) (f s) → wp (modify f) Q s.
Proof. done. Qed.

Lemma wp_assert {S} (b : bool) (Q : Res unit → S → Prop) s :
  (b = true → Q (Ok tt) s) → (b = false → Q (Raise AssertionError) s) →
  wp (assert b) Q s.
Proof. destruct b; unfold wp; simpl; auto. Qed.

Lemma wp_mapM {S A B} (f : A → M S B) (I : S → Prop)
    (Q : Res (list B) → S → Prop) l s :
  (∀ x s0, x ∈ l → I s0 → wp (f x) (λ _ s', I s') s0) →
  (∀ r s', I s' → Q r s') →
  I s → wp (mapM f l) Q s.
Proof.
  revert Q s. induction l as [|x l IH]; intros Q s Hf HQ Hs.
  - apply wp_ret. auto.
  - simpl. apply wp_bind.
    eapply wp_mono; [|apply (Hf x s); [left|done]].
    intros [y|e] s' Hs'; [|by apply HQ].
    apply wp_bind. apply IH; [| |done].
    + intros x' s0 Hx'. apply Hf. by right.
    + intros [ys|e] s'' Hs''; [apply wp_ret|]; by apply HQ.
Qed.

(** ** Rendering an array result (C7) *)

(** C7: an [ArrayResult] rendered at the empty index tuple is the bare
    variable of its buffer name; rendered at a non-empty index tuple it is the
    subscript of that variable by exactly the given indices.  Rendering
    neither fails nor touches the context. *)
Theorem ArrayResult_to_loopy_expression
    (name : string) (shape dtype : PyObject) (context : LoopyExpressionContext) :
  to_loopy_expression (ArrayResult name shape dtype) [] context
    = (Ok (prim_Variable name), context)
  ∧ ∀ (i : ScalarExpression) (indices : SymbolicIndex),
      to_loopy_expression (ArrayResult name shape dtype) (i :: indices) context
      = (Ok (prim_Subscript (prim_Variable name) (i :: indices)), context).
Proof. split; [reflexivity | intros; reflexivity]. Qed.

(** ** First visit of a placeholder (C1) *)

Lemma map_placeholder_first_visit uid name shape dtype st :
  results st !! uid = None →
  map_placeholder uid name shape dtype st
  = (Ok (ArrayResult name (PyDtype dtype) (PyTuple shape)),
     placeholder_visited uid name shape dtype st).
Proof.
  intros Hfresh. unfold map_placeholder, bind, gets. simpl. by rewrite Hfresh.
Qed.

(** C1: on the first visit of a placeholder the walker appends one input
    buffer argument with the placeholder's name, shape and dtype and emits no
    instruction, but the [ArrayResult] it caches has the two attributes
    exchanged: its [shape] is the node's dtype and its [dtype] is the node's
    shape. *)
Theorem placeholder_result_has_shape_and_dtype_exchanged
    (fuel uid : nat) (name : string) (shape : ShapeType) (dtype : np_dtype)
    (st : CodeGenState) :
  results st !! uid = None →
  ∃ (r : GeneratedResult) (st' : CodeGenState),
    CodeGenMapper_rec (S fuel) (Placeholder uid name shape dtype) st = (Ok r, st')
    ∧ results st' !! uid = Some r
    ∧ args (kernel st') = args (kernel st) ++
        [ {| arg_name := name; arg_shape := shape; arg_dtype := dtype;
             arg_order := "C"; is_output_only := false |} ]
    ∧ instructions (kernel st') = instructions (kernel st)
    ∧ domains (kernel st') = domains (kernel st)
    ∧ GeneratedResult_shape r = PyDtype dtype
    ∧ GeneratedResult_dtype r = PyTuple shape
    ∧ GeneratedResult_shape r ≠ PyTuple shape
    ∧ GeneratedResult_dtype r ≠ PyDtype dtype.
Proof.
  intros Hfresh. simpl. rewrite map_placeholder_first_visit by done.
  eexists _, _. split; [reflexivity|]. simpl.
  rewrite lookup_insert_eq. repeat split; done.
Qed.

Lemma placeholder_result_has_shape_and_dtype_exchanged_witness :
  ∃ (r : GeneratedResult) (st' : CodeGenState),
    CodeGenMapper_rec 1 x10 (initial_state []) = (Ok r, st')
    ∧ results st' !! 1 = Some r
    ∧ args (kernel st') = args (kernel (initial_state [])) ++
        [ {| arg_name := "x"; arg_shape := [prim_Const 10]; arg_dtype := float64;
             arg_order := "C"; is_output_only := false |} ]
    ∧ instructions (kernel st') = instructions (kernel (initial_state []))
    ∧ domains (kernel st') = domains (kernel (initial_state []))
    ∧ GeneratedResult_shape r = PyDtype float64
    ∧ GeneratedResult_dtype r = PyTuple [prim_Const 10]
    ∧ GeneratedResult_shape r ≠ PyTuple [prim_Const 10]
    ∧ GeneratedResult_dtype r ≠ PyDtype float64.
Proof.
  apply (placeholder_result_has_shape_and_dtype_exchanged
           0 1 "x" [prim_Const 10] float64 (initial_state [])).
  reflexivity.
Defined.

(** ** Scalar outputs (C6) *)

(** C6: lowering an [Output] whose shape is the empty tuple, on its first
    visit, stops at the assertion: the exception is an [AssertionError] and
    the state is the one before the call, so no argument, domain or
    instruction was added and the inner node was not visited. *)
Theorem scalar_output_fails_fast
    (fuel uid : nat) (name : string) (array : Array) (dtype : np_dtype)
    (st : CodeGenState) :
  results st !! uid = None →
  CodeGenMapper_rec (S fuel) (Output uid name array [] dtype) st
  = (Raise AssertionError, st).
Proof.
  intros Hfresh. simpl. unfold map_output, bind, gets. simpl.
  by rewrite Hfresh.
Qed.

Lemma scalar_output_fails_fast_witness :
  CodeGenMapper_rec 1 scalar_output (initial_state [])
  = (Raise AssertionError, initial_state []).
Proof.
  apply (scalar_output_fails_fast 0 9 "s" x10 float64 (initial_state [])).
  reflexivity.
Defined.

(** ** Memoization (C3) *)

Lemma cached_node_returned fuel a st r :
  has_method a →
  results st !! Array_uid a = Some r →
  CodeGenMapper_rec (S fuel) a st = (Ok r, st).
Proof.
  intros Hm Hc. destruct a; simpl in *; try done;
    unfold map_placeholder, map_output, map_index_lambda, bind, gets; simpl;
    by rewrite Hc.
Qed.

Lemma wp_results_setitem uid r (Q : Res unit → CodeGenState → Prop) st :
  Q (Ok tt) (with_results (<[uid := r]> (results st)) st) →
  wp (results_setitem uid r) Q st.
Proof. done. Qed.

(** A method that returns has its result in the cache under the node. *)
Lemma lowered_node_cached fuel a st :
  wp (CodeGenMapper_rec fuel a)
     (λ r st', ∀ g, r = Ok g → has_method a ∧ results st' !! Array_uid a = Some g)
     st.
Proof.
  destruct fuel as [|fuel]; [done|].
  destruct a as [uid name shape dtype|uid name array shape dtype
                |uid e shape dtype bindings|uid shape dtype]; simpl.
  - unfold map_placeholder. apply wp_bind, wp_gets.
    destruct (results st !! uid) as [c|] eqn:Hc.
    + apply wp_ret. intros g [= <-]. done.
    + apply wp_bind, wp_gets, wp_bind, wp_modify, wp_bind, wp_modify, wp_ret.
      intros g [= <-]. simpl. by rewrite lookup_insert_eq.
  - unfold map_output. apply wp_bind, wp_gets.
    destruct (results st !! uid) as [c|] eqn:Hc.
    + apply wp_ret. intros g [= <-]. done.
    + apply wp_bind, wp_assert; [intros _|done].
      apply wp_bind_run; [intros inner st1 _|done].
      apply wp_bind_run; [intros inames st2 _|done].
      apply wp_bind_run; [intros rendered st3 _|done].
      apply wp_bind, wp_assert; [intros _|done].
      apply wp_bind, wp_assert; [intros _|done].
      apply wp_bind_run; [intros id st4 _|done].
      apply wp_bind, wp_gets, wp_bind, wp_modify, wp_bind, wp_modify, wp_ret.
      intros g [= <-]. simpl. by rewrite lookup_insert_eq.
  - unfold map_index_lambda. apply wp_bind, wp_gets.
    destruct (results st !! uid) as [c|] eqn:Hc.
    + apply wp_ret. intros g [= <-]. done.
    + apply wp_bind_run; [intros rewritten st1 _|done].
      apply wp_bind, wp_modify, wp_ret.
      intros g [= <-]. simpl. by rewrite lookup_insert_eq.
  - done.
Qed.

(** C3: a node is lowered at most once.  A call of the walker that returns
    leaves its result in the cache under the node, and a call on a node that
    is in the cache returns the cached result and leaves the whole state (the
    kernel, the cache, both name generators, the namespace chain) as it
    was. *)
Theorem node_lowered_at_most_once :
  (∀ (fuel : nat) (a : Array) (st st' : CodeGenState) (r : GeneratedResult),
     CodeGenMapper_rec fuel a st = (Ok r, st') →
     results st' !! Array_uid a = Some r
     ∧ ∀ fuel', CodeGenMapper_rec (S fuel') a st' = (Ok r, st'))
  ∧ (∀ (fuel : nat) (a : Array) (st : CodeGenState) (r : GeneratedResult),
       has_method a →
       results st !! Array_uid a = Some r →
       CodeGenMapper_rec (S fuel) a st = (Ok r, st)).
Proof.
  split.
  - intros fuel a st st' r Hrun.
    pose proof (lowered_node_cached fuel a st) as H.
    unfold wp in H. rewrite Hrun in H. destruct (H r eq_refl) as [Hm Hc].
    split; [done|]. intros fuel'. by apply cached_node_returned.
  - intros fuel a st r. apply cached_node_returned.
Qed.

Lemma node_lowered_at_most_once_witness :
  (results (CodeGenMapper_rec 1 x10 (initial_state [])).2 !! 1
   = Some (ArrayResult "x" (PyDtype float64) (PyTuple [prim_Const 10]))
   ∧ ∀ fuel', CodeGenMapper_rec (S fuel') x10
                (CodeGenMapper_rec 1 x10 (initial_state [])).2
              = (Ok (ArrayResult "x" (PyDtype float64) (PyTuple [prim_Const 10])),
                 (CodeGenMapper_rec 1 x10 (initial_state [])).2))
  ∧ CodeGenMapper_rec 1 x10 (CodeGenMapper_rec 1 x10 (initial_state [])).2
    = (Ok (ArrayResult "x" (PyDtype float64) (PyTuple [prim_Const 10])),
       (CodeGenMapper_rec 1 x10 (initial_state [])).2).
Proof.
  split.
  - apply (proj1 node_lowered_at_most_once 1 x10 (initial_state [])).
    reflexivity.
  - apply (proj2 node_lowered_at_most_once 0 x10); [exact I | reflexivity].
Defined.

(** ** The pushed scope after an exception (C2) *)

(** The body of [unbound_lambda] refers to a name that no scope binds: the
    lookup raises [KeyError], and the namespace chain of the state afterwards
    still starts with the lambda's bindings; it has two scopes where it had
    one. *)
Example unbound_lambda_keeps_scope_pushed :
  (CodeGenMapper_rec 2 unbound_lambda (initial_state [])).1
    = Raise (KeyError "z")
  ∧ namespace (initial_state []) = [ [] ]
  ∧ namespace (CodeGenMapper_rec 2 unbound_lambda (initial_state [])).2
    = [ []; [] ]
  ∧ namespace (CodeGenMapper_rec 2 unbound_lambda (initial_state [])).2
    ≠ namespace (initial_state []).
Proof. repeat split; try reflexivity. discriminate. Qed.

(** ** Rendering an expression result (C4) *)

Lemma dim_placeholder_inj d d' : dim_placeholder d = dim_placeholder d' → d = d'.
Proof.
  unfold dim_placeholder. intros H.
  apply (inj (String.app "_")) in H. by apply (inj pretty) in H.
Qed.

Lemma foldl_insert_lookup {V} (acc : gmap string V) pairs x :
  foldl (λ m kv, <[kv.1 := kv.2]> m) acc pairs !! x
  = match dict pairs !! x with
    | Some y => Some y
    | None => acc !! x
    end.
Proof.
  revert acc. induction pairs as [|[k v] pairs IH]; intros acc.
  - unfold dict. simpl. by rewrite lookup_empty.
  - unfold dict. simpl. rewrite !IH. fold (dict pairs).
    destruct (dict pairs !! x); [done|].
    rewrite !lookup_insert. case_decide; [done|]. by rewrite lookup_empty.
Qed.

Lemma dict_cons_lookup {V} k (v : V) pairs x :
  dict ((k, v) :: pairs) !! x
  = match dict pairs !! x with
    | Some y => Some y
    | None => if decide (k = x) then Some v else None
    end.
Proof.
  unfold dict at 1. simpl. rewrite foldl_insert_lookup.
  destruct (dict pairs !! x); [done|].
  rewrite lookup_insert. case_decide; [done|]. by rewrite lookup_empty.
Qed.

Lemma index_for_later d d' indices :
  d < d' → index_for (dim_placeholder d) d' indices = None.
Proof.
  revert d'. induction indices as [|i rest IH]; intros d' Hlt; [done|].
  simpl. case_bool_decide as Heq.
  - apply dim_placeholder_inj in Heq. lia.
  - apply IH. lia.
Qed.

(** The dict that [LoopyExpressionResult.to_loopy_expression] builds binds
    the placeholder of each dimension that has an index to that index, and
    nothing else. *)
Lemma dict_zip_placeholders name d n indices :
  dict (zip (dim_placeholder <$> seq d n) indices) !! name
  = index_for name d (take n indices).
Proof.
  revert d indices. induction n as [|n IH]; intros d indices.
  - simpl. unfold dict. simpl. by rewrite lookup_empty.
  - destruct indices as [|i rest].
    + simpl. unfold dict. simpl. by rewrite lookup_empty.
    + simpl. rewrite dict_cons_lookup, IH.
      case_bool_decide as Heq.
      * subst name. rewrite index_for_later by lia. by rewrite decide_True.
      * destruct (index_for name (S d) (take n rest)); [done|].
        by rewrite decide_False.
Qed.

Lemma map_ext_Forall_eq {A B} (f g : A → B) l :
  Forall (λ x, f x = g x) l → List.map f l = List.map g l.
Proof. induction 1; simpl; congruence. Qed.

Lemma substitute_as_substitute_dims expr n indices :
  substitute expr (dict (zip (dim_placeholder <$> seq 0 n) indices))
  = substitute_dims (take n indices) expr.
Proof.
  induction expr as [z|name|a idx IHa IHidx|cs IH|cs IH]
    using ScalarExpression_deep_ind; simpl.
  - done.
  - by rewrite dict_zip_placeholders.
  - f_equal; [done | by apply map_ext_Forall_eq].
  - f_equal. by apply map_ext_Forall_eq.
  - f_equal. by apply map_ext_Forall_eq.
Qed.

(** C4: an expression result of [n] dimensions rendered at an index tuple of
    [n] indices is its stored expression with, for each dimension [d], the
    variable named [_d] replaced by the index of that dimension; the result
    is built from the stored expression, and neither the context nor the
    state behind it changes. *)
Theorem LoopyExpressionResult_to_loopy_expression
    (expr : ScalarExpression) (shape dtype : PyObject)
    (indices : SymbolicIndex) (context : LoopyExpressionContext) :
  length indices = ndim (LoopyExpressionResult expr shape dtype) →
  to_loopy_expression (LoopyExpressionResult expr shape dtype) indices context
  = (Ok (substitute_dims indices expr), context).
Proof.
  intros Hlen. unfold to_loopy_expression, ret.
  rewrite substitute_as_substitute_dims, take_ge by lia. done.
Qed.

Lemma LoopyExpressionResult_to_loopy_expression_witness :
  to_loopy_expression
    (LoopyExpressionResult row_plus_col
       (PyTuple [prim_Const 3; prim_Const 4]) (PyDtype float64))
    [prim_Variable "i"; prim_Variable "_0"]
    (make_expression_context (initial_state []))
  = (Ok (prim_Sum [prim_Variable "i";
                   prim_Product [prim_Variable "_0"; prim_Variable "k"]]),
     make_expression_context (initial_state [])).
Proof.
  apply (LoopyExpressionResult_to_loopy_expression row_plus_col
           (PyTuple [prim_Const 3; prim_Const 4]) (PyDtype float64)
           [prim_Variable "i"; prim_Variable "_0"]
           (make_expression_context (initial_state []))).
  reflexivity.
Defined.

(** ** What a returning call has done *)

Lemma bind_Ok {S A B} (m : M S A) (k : A → M S B) s b s' :
  bind m k s = (Ok b, s') →
  ∃ a s1, m s = (Ok a, s1) ∧ k a s1 = (Ok b, s').
Proof.
  unfold bind. destruct (m s) as [[a|e] s1]; [eauto | discriminate].
Qed.

Lemma assert_Ok {S} (b : bool) (s : S) u s' :
  assert b s = (Ok u, s') → b = true ∧ s' = s.
Proof. destruct b; simpl; [by intros [= <- <-] | discriminate]. Qed.

Lemma mapM_Ok_invariant {S A B} (f : A → M S B) (J : S → Prop) l :
  Forall (λ x, ∀ s y s', J s → f x s = (Ok y, s') → J s') l →
  ∀ s ys s', J s → mapM f l s = (Ok ys, s') → J s'.
Proof.
  induction 1 as [|x l Hx _ IH]; intros s ys s' HJ Hrun; simpl in Hrun.
  - by injection Hrun as <- <-.
  - apply bind_Ok in Hrun as (y & s1 & Hy & Hrun).
    apply bind_Ok in Hrun as (ys' & s2 & Hys & Hrun).
    injection Hrun as <- <-. eauto.
Qed.

(** Rendering a result does not touch the context it is given. *)
Lemma to_loopy_expression_context self indices context :
  (to_loopy_expression self indices context).2 = context.
Proof. by destruct self, indices. Qed.

Lemma with_context_to_loopy_expression self indices st rendered st' :
  with_context (to_loopy_expression self indices) st = (Ok rendered, st') →
  st' = st ∧ rendered.2 = make_expression_context st
  ∧ to_loopy_expression self indices (make_expression_context st)
    = (Ok rendered.1, make_expression_context st).
Proof.
  unfold with_context.
  pose proof (to_loopy_expression_context self indices
                (make_expression_context st)) as Hctx.
  destruct (to_loopy_expression self indices (make_expression_context st))
    as [[e|?] context]; [|discriminate].
  simpl in Hctx. subst context. by intros [= <- <-].
Qed.

(** The steps of a first visit of an output that returns. *)
Lemma map_output_first_visit rec uid name array shape dtype st r st' :
  results st !! uid = None →
  map_output rec uid name array shape dtype st = (Ok r, st') →
  ∃ inner st1 inames st2 copy_expr id st3,
    shape ≠ []
    ∧ rec array st = (Ok inner, st1)
    ∧ mapM (λ d, call_var_name_gen (name +:+ "_dim" +:+ pretty d))
        (seq 0 (length shape)) st1 = (Ok inames, st2)
    ∧ to_loopy_expression inner (prim_Variable <$> inames)
        (make_expression_context st2)
      = (Ok copy_expr, make_expression_context st2)
    ∧ call_insn_id_gen (name +:+ "_copy") st2 = (Ok id, st3)
    ∧ r = ArrayResult name (PyDtype dtype) (PyTuple shape)
    ∧ st' = output_visited uid name shape dtype inames copy_expr id st3.
Proof.
  intros Hfresh Hrun. unfold map_output in Hrun.
  apply bind_Ok in Hrun as (cached & s0 & Hget & Hrun).
  injection Hget as <- <-. rewrite Hfresh in Hrun.
  apply bind_Ok in Hrun as (? & s0 & (Hshape & ->)%assert_Ok & Hrun).
  apply bind_Ok in Hrun as (inner & st1 & Hinner & Hrun).
  apply bind_Ok in Hrun as (inames & st2 & Hinames & Hrun).
  apply bind_Ok in Hrun as (rendered & s3 & Hrender & Hrun).
  apply with_context_to_loopy_expression in Hrender as (-> & Hctx & Hrender).
  apply bind_Ok in Hrun as (? & s4 & (_ & ->)%assert_Ok & Hrun).
  apply bind_Ok in Hrun as (? & s5 & (Hdeps & ->)%assert_Ok & Hrun).
  apply bind_Ok in Hrun as (id & st3 & Hid & Hrun).
  apply bind_Ok in Hrun as (k & s6 & Hk & Hrun). injection Hk as <- <-.
  apply bind_Ok in Hrun as ([] & s7 & Hupd & Hrun). injection Hupd as <-.
  apply bind_Ok in Hrun as ([] & s8 & Hset & Hrun). injection Hset as <-.
  injection Hrun as <- <-.
  apply bool_decide_eq_true in Hdeps.
  exists inner, st1, inames, st2, rendered.1, id, st3.
  repeat split; try done.
  - intros ->. by rewrite bool_decide_eq_true_2 in Hshape.
  - unfold output_visited, copy_insn. by rewrite Hdeps.
Qed.

Lemma chain_namespaces_Ok {A} local_namespace (body : M CodeGenState A)
    st a st' :
  chain_namespaces local_namespace body st = (Ok a, st') →
  ∃ st1,
    body (set_namespace (local_namespace :: namespace st) st) = (Ok a, st1)
    ∧ st' = set_namespace (tail (namespace st1)) st1.
Proof.
  unfold chain_namespaces.
  destruct (body _) as [[a'|e] st1]; [|discriminate].
  intros [= <- <-]. eauto.
Qed.

Lemma with_context_Ok {A} (m : M LoopyExpressionContext A) st p st' :
  with_context m st = (Ok p, st') →
  m (make_expression_context st) = (Ok p.1, p.2) ∧ st' = state p.2.
Proof.
  unfold with_context.
  destruct (m (make_expression_context st)) as [[a|e] context]; [|discriminate].
  by intros [= <- <-].
Qed.

(** The steps of a first visit of an index lambda that returns: the body is
    rewritten on a fresh context of the state with the bindings pushed, and
    afterwards the first scope of the chain is dropped and the result
    cached. *)
Lemma map_index_lambda_first_visit rec uid e shape dtype bindings st r st' :
  results st !! uid = None →
  map_index_lambda rec uid e shape dtype bindings st = (Ok r, st') →
  ∃ loopy_expr context,
    LoopyExpressionGenMapper_rec rec e
      (make_expression_context (set_namespace (bindings :: namespace st) st))
    = (Ok loopy_expr, context)
    ∧ r = LoopyExpressionResult loopy_expr (PyTuple shape) (PyDtype dtype)
    ∧ st' = index_lambda_visited uid loopy_expr shape dtype
              (set_namespace (tail (namespace (state context))) (state context)).
Proof.
  intros Hfresh Hrun. unfold map_index_lambda in Hrun.
  apply bind_Ok in Hrun as (cached & s0 & Hget & Hrun).
  injection Hget as <- <-. rewrite Hfresh in Hrun.
  apply bind_Ok in Hrun as (rewritten & s1 & Hbody & Hrun).
  apply chain_namespaces_Ok in Hbody as (s2 & Hbody & ->).
  apply with_context_Ok in Hbody as (Hbody & ->).
  apply bind_Ok in Hrun as ([] & s3 & Hset & Hrun). injection Hset as <-.
  injection Hrun as <- <-.
  exists rewritten.1, rewritten.2. by repeat split.
Qed.

Lemma on_state_Ok {A} (m : M CodeGenState A) context a context' :
  on_state m context = (Ok a, context') →
  ∃ st', m (state context) = (Ok a, st') ∧ context' = with_state st' context.
Proof.
  unfold on_state. destruct (m (state context)) as [r st'].
  intros [= -> <-]. eauto.
Qed.

Lemma namespace_getitem_Ok name context a context' :
  namespace_getitem name context = (Ok a, context') →
  ChainMap_get (namespace (state context)) name = Some a ∧ context' = context.
Proof.
  unfold namespace_getitem.
  destruct (ChainMap_get _ _); [by intros [= <- <-] | discriminate].
Qed.

Lemma to_loopy_expression_Ok self indices context e context' :
  to_loopy_expression self indices context = (Ok e, context') →
  context' = context.
Proof.
  intros H. pose proof (to_loopy_expression_context self indices context) as E.
  by rewrite H in E.
Qed.

(** ** An invariant of lowering *)

Lemma bindings_Forall P (bindings : Mapping) :
  foldr (λ kv acc, Array_Forall P kv.2 ∧ acc) True bindings
  ↔ Mapping_Forall P bindings.
Proof.
  unfold Mapping_Forall. induction bindings as [|kv m IH]; simpl.
  - split; [constructor | done].
  - rewrite Forall_cons. by rewrite IH.
Qed.

Lemma Array_Forall_here P a : Array_Forall P a → P a.
Proof. destruct a; simpl; tauto. Qed.

Lemma Mapping_get_Forall P m key a :
  Mapping_Forall P m → Mapping_get m key = Some a → Array_Forall P a.
Proof.
  induction 1 as [|[k v] m Hv _ IH]; simpl; [done|].
  case_bool_decide; [by intros [= <-] | done].
Qed.

Lemma ChainMap_get_Forall P maps key a :
  chain_Forall P maps → ChainMap_get maps key = Some a → Array_Forall P a.
Proof.
  induction 1 as [|m maps Hm _ IH]; simpl; [done|].
  destruct (Mapping_get m key) eqn:Hget; [|done].
  intros [= <-]. by eapply Mapping_get_Forall.
Qed.

Section LoweringInvariant.
(** [P] holds of every node the pass can reach; [I] is a property of the
    kernel, the cache and the name generators that each step of the walker
    keeps, whatever the namespace chain is. *)
Variable P : Array → Prop.
Variable I : CodeGenState → Prop.
Hypothesis I_namespace : ∀ maps st, I st → I (set_namespace maps st).
Hypothesis I_var_name_gen : ∀ g st, I st → I (with_var_name_gen g st).
Hypothesis I_insn_id_gen : ∀ g st, I st → I (with_insn_id_gen g st).
Hypothesis I_placeholder : ∀ uid name shape dtype st,
  P (Placeholder uid name shape dtype) → I st →
  I (placeholder_visited uid name shape dtype st).
Hypothesis I_output : ∀ uid name array shape dtype inames copy_expr id st,
  P (Output uid name array shape dtype) → I st →
  I (output_visited uid name shape dtype inames copy_expr id st).
Hypothesis I_index_lambda : ∀ uid e shape dtype bindings loopy_expr st,
  P (IndexLambda uid e shape dtype bindings) → I st →
  I (index_lambda_visited uid loopy_expr shape dtype st).


Lemma call_var_name_gen_kept based_on st0 st name st' :
  kept P I st0 st → call_var_name_gen based_on st = (Ok name, st') → kept P I st0 st'.
Proof.
  unfold call_var_name_gen.
  destruct (UniqueNameGenerator_call _ _) as [n g].
  intros (? & ? & ?) [= _ <-]. repeat split; simpl; auto.
Qed.

Lemma call_insn_id_gen_kept based_on st0 st name st' :
  kept P I st0 st → call_insn_id_gen based_on st = (Ok name, st') → kept P I st0 st'.
Proof.
  unfold call_insn_id_gen.
  destruct (UniqueNameGenerator_call _ _) as [n g].
  intros (? & ? & ?) [= _ <-]. repeat split; simpl; auto.
Qed.

Section Rewriter.
Variable rec : Array → M CodeGenState GeneratedResult.
Hypothesis rec_kept : ∀ a st r st',
  Array_Forall P a → chain_Forall P (namespace st) → I st →
  rec a st = (Ok r, st') → kept P I st st'.

Lemma reference_kept name index context0 context e context' :
  kept_context P I context0 context →
  (let* node := namespace_getitem name in
   let* result := on_state (rec node) in
   to_loopy_expression result index) context = (Ok e, context') →
  kept_context P I context0 context'.
Proof.
  intros ((Hns & Hchain & HI) & Hdeps & Hrb) Hrun.
  apply bind_Ok in Hrun as (node & c1 & (Hget & ->)%namespace_getitem_Ok & Hrun).
  apply bind_Ok in Hrun as (result & c2 & Hrec & Hrun).
  apply on_state_Ok in Hrec as (st' & Hrec & ->).
  apply to_loopy_expression_Ok in Hrun as ->.
  apply rec_kept in Hrec as (Hns' & Hchain' & HI'); [|by eapply ChainMap_get_Forall|done..].
  repeat split; simpl; try done. congruence.
Qed.

Lemma LoopyExpressionGenMapper_rec_kept expr :
  ∀ context0 context e context',
    kept_context P I context0 context →
    LoopyExpressionGenMapper_rec rec expr context = (Ok e, context') →
    kept_context P I context0 context'.
Proof.
  induction expr as [z|name|a idx _ _|cs IH|cs IH]
    using ScalarExpression_deep_ind; intros context0 context e context' Hk Hrun;
    simpl in Hrun.
  - by injection Hrun as <- <-.
  - by eapply reference_kept.
  - destruct a; try discriminate. by eapply reference_kept.
  - apply bind_Ok in Hrun as (cs' & c1 & Hcs & Hrun). injection Hrun as <- <-.
    eapply (mapM_Ok_invariant _ (kept_context P I context0)); [|done|done].
    eapply Forall_impl; [exact IH|]. simpl. eauto.
  - apply bind_Ok in Hrun as (cs' & c1 & Hcs & Hrun). injection Hrun as <- <-.
    eapply (mapM_Ok_invariant _ (kept_context P I context0)); [|done|done].
    eapply Forall_impl; [exact IH|]. simpl. eauto.
Qed.
End Rewriter.

Lemma CodeGenMapper_rec_kept fuel :
  ∀ a st r st',
    Array_Forall P a → chain_Forall P (namespace st) → I st →
    CodeGenMapper_rec fuel a st = (Ok r, st') → kept P I st st'.
Proof.
  induction fuel as [|fuel IH]; intros a st r st' Ha Hchain HI Hrun;
    [discriminate|].
  pose proof (Array_Forall_here _ _ Ha) as HP.
  destruct a as [uid name shape dtype|uid name array shape dtype
                |uid e shape dtype bindings|uid shape dtype];
    simpl in Hrun; [| | |discriminate].
  - destruct (results st !! uid) as [c|] eqn:Hc.
    + unfold map_placeholder, bind, gets in Hrun. simpl in Hrun.
      rewrite Hc in Hrun. by injection Hrun as <- <-.
    + rewrite map_placeholder_first_visit in Hrun by done.
      injection Hrun as <- <-. repeat split; simpl; auto.
  - destruct (results st !! uid) as [c|] eqn:Hc.
    + unfold map_output, bind, gets in Hrun. simpl in Hrun.
      rewrite Hc in Hrun. by injection Hrun as <- <-.
    + apply map_output_first_visit in Hrun
        as (inner & st1 & inames & st2 & copy_expr & id & st3 & _ & Hinner
            & Hinames & _ & Hid & _ & ->); [|done].
      destruct Ha as [_ Harray].
      apply IH in Hinner; [|done..].
      assert (kept P I st st2) as Hst2.
      { eapply (mapM_Ok_invariant _ (kept P I st)); [|exact Hinner|exact Hinames].
        apply Forall_forall. intros d _ s y s'. apply call_var_name_gen_kept. }
      eapply call_insn_id_gen_kept in Hid as (Hns & Hchain' & HI'); [|exact Hst2].
      repeat split; simpl; eauto.
  - destruct (results st !! uid) as [c|] eqn:Hc.
    + unfold map_index_lambda, bind, gets in Hrun. simpl in Hrun.
      rewrite Hc in Hrun. by injection Hrun as <- <-.
    + apply map_index_lambda_first_visit in Hrun
        as (loopy_expr & context & Hbody & _ & ->); [|done].
      destruct Ha as [_ Hbindings%bindings_Forall].
      eapply (LoopyExpressionGenMapper_rec_kept _ IH) in Hbody
        as ((Hns & Hchain' & HI') & _ & _).
      2:{ repeat split; simpl; auto. by constructor. }
      simpl in Hns. rewrite Hns in *. simpl.
      apply Forall_cons in Hchain' as [_ ?].
      repeat split; simpl; eauto.
Qed.

End LoweringInvariant.

(** ** The unique name generator *)

Lemma append_cons_ne (s : string) c t : s ≠ s +:+ String c t.
Proof.
  induction s as [|a s IH]; [done|].
  unfold String.append; fold String.append. by intros [= H].
Qed.

Lemma numbered_name_inj based_on : Inj (=) (=) (numbered_name based_on).
Proof.
  intros [|j] [|k] H; simpl in H.
  - done.
  - by apply append_cons_ne in H.
  - symmetry in H. by apply append_cons_ne in H.
  - apply (inj (String.app based_on)), (inj (String.app "_")) in H.
    by apply (inj pretty) in H as ->.
Qed.

(** The search of the generator ends on a name that is not in use: if the
    candidates [0 .. k-1] are all in use and [tries] more may be tried, with
    [k + tries] the number of names in use, the name returned is free. *)
Lemma first_unused_fresh existing based_on tries k :
  (∀ j, j < k → numbered_name based_on j ∈ existing) →
  k + tries = size existing →
  first_unused existing based_on tries k ∉ existing.
Proof.
  revert k. induction tries as [|tries IH]; intros k Hused Hsize; simpl.
  - intros Hin.
    assert ((list_to_set (numbered_name based_on <$> seq 0 (S k)) : gset string)
            ⊆ existing) as Hsub.
    { intros x (j & -> & Hj%elem_of_seq)%elem_of_list_to_set%list_elem_of_fmap.
      destruct (decide (j = k)) as [->|]; [done|]. apply Hused. lia. }
    apply subseteq_size in Hsub.
    rewrite size_list_to_set, length_fmap, length_seq in Hsub; [lia|].
    apply NoDup_fmap; [apply numbered_name_inj | apply NoDup_seq].
  - case_bool_decide as Hin; [|done].
    apply IH; [|lia]. intros j Hj.
    destruct (decide (j = k)) as [->|]; [done|]. apply Hused. lia.
Qed.

Lemma UniqueNameGenerator_call_fresh g based_on :
  ((UniqueNameGenerator_call g based_on).1 ∉ existing_names g)
  ∧ existing_names (UniqueNameGenerator_call g based_on).2
    = {[ (UniqueNameGenerator_call g based_on).1 ]} ∪ existing_names g.
Proof.
  split; [|done]. simpl. apply first_unused_fresh; [lia | done].
Qed.

(** A name that is free is returned as it is. *)
Lemma UniqueNameGenerator_call_free g based_on :
  based_on ∉ existing_names g →
  (UniqueNameGenerator_call g based_on).1 = based_on.
Proof.
  intros Hfree. simpl. destruct (size (existing_names g)); simpl; [done|].
  by rewrite bool_decide_eq_false_2.
Qed.

(** The loop variables of an output: one call of the generator per
    dimension.  The names are pairwise distinct, none was known to the
    generator before, and nothing but the generator changes. *)
Lemma generated_names (f : nat → string) l st inames st' :
  mapM (λ d, call_var_name_gen (f d)) l st = (Ok inames, st') →
  length inames = length l
  ∧ NoDup inames
  ∧ (∀ i, i ∈ inames → i ∉ existing_names (var_name_gen st))
  ∧ existing_names (var_name_gen st')
    = list_to_set inames ∪ existing_names (var_name_gen st)
  ∧ namespace st' = namespace st ∧ kernel st' = kernel st
  ∧ results st' = results st ∧ insn_id_gen st' = insn_id_gen st.
Proof.
  revert st inames st'. induction l as [|d l IH]; intros st inames st' Hrun;
    simpl in Hrun.
  - injection Hrun as <- <-. repeat split; try done; [constructor|set_solver..].
  - apply bind_Ok in Hrun as (i & st1 & Hi & Hrun).
    apply bind_Ok in Hrun as (rest & st2 & His & Hrun).
    injection Hrun as <- <-.
    apply IH in His as (Hlen & Hnd & Hfresh & Hex & Hns & Hk & Hres & Hid).
    unfold call_var_name_gen in Hi.
    pose proof (UniqueNameGenerator_call_fresh (var_name_gen st) (f d))
      as [Hi_fresh Hi_ex].
    destruct (UniqueNameGenerator_call (var_name_gen st) (f d)) as [n g].
    injection Hi as -> <-. simpl in *.
    rewrite Hex, Hi_ex. repeat split; try done.
    + by rewrite Hlen.
    + constructor; [|done]. intros Hin%Hfresh. rewrite Hi_ex in Hin. set_solver.
    + intros x [->|Hx]%elem_of_cons; [done|].
      apply Hfresh in Hx. rewrite Hi_ex in Hx. set_solver.
    + set_solver.
Qed.

Lemma call_insn_id_gen_Ok based_on st id st' :
  call_insn_id_gen based_on st = (Ok id, st') →
  namespace st' = namespace st ∧ kernel st' = kernel st
  ∧ results st' = results st ∧ var_name_gen st' = var_name_gen st
  ∧ id ∉ existing_names (insn_id_gen st).
Proof.
  unfold call_insn_id_gen.
  pose proof (UniqueNameGenerator_call_fresh (insn_id_gen st) based_on) as [H _].
  destruct (UniqueNameGenerator_call _ _) as [n g].
  by intros [= <- <-].
Qed.

(** ** Lowering an output (C5) *)

(** C5: a first visit of an [Output] of shape [(d0, ..., dn)] that returns
    has lowered the inner node and then added to the kernel it found: one
    buffer argument; one domain whose loop variables are [n + 1] names from
    the variable name generator, pairwise distinct and unknown to the
    generator before, and whose extents are the shape; and one instruction,
    which assigns to the output buffer subscripted by those loop variables in
    order, the inner result rendered at them, and runs within exactly those
    loop variables. *)
Theorem output_domain_matches_shape
    (fuel uid : nat) (name : string) (array : Array) (shape : ShapeType)
    (dtype : np_dtype) (st st' : CodeGenState) (r : GeneratedResult) :
  results st !! uid = None →
  CodeGenMapper_rec (S fuel) (Output uid name array shape dtype) st
    = (Ok r, st') →
  ∃ (inner : GeneratedResult) (st1 : CodeGenState) (inames : list string)
    (copy_expr : ScalarExpression) (id : string),
    CodeGenMapper_rec fuel array st = (Ok inner, st1)
    ∧ length inames = length shape
    ∧ NoDup inames
    ∧ (∀ i, i ∈ inames → i ∉ existing_names (var_name_gen st1))
    ∧ (∀ i, i ∈ inames → i ∈ existing_names (var_name_gen st'))
    ∧ domains (kernel st')
      = domains (kernel st1)
        ++ [ {| dim_names := inames; dim_extents := shape |} ]
    ∧ (∀ context,
         to_loopy_expression inner (prim_Variable <$> inames) context
         = (Ok copy_expr, context))
    ∧ instructions (kernel st')
      = instructions (kernel st1)
        ++ [ {| insn_assignees :=
                  [prim_Subscript (prim_Variable name)
                     (prim_Variable <$> inames)];
                insn_expression := copy_expr;
                insn_id := id;
                insn_within_inames := list_to_set inames;
                insn_depends_on := ∅ |} ]
    ∧ args (kernel st')
      = args (kernel st1)
        ++ [ {| arg_name := name; arg_shape := shape; arg_dtype := dtype;
                arg_order := "C"; is_output_only := true |} ].
Proof.
  intros Hfresh Hrun. simpl in Hrun.
  apply map_output_first_visit in Hrun
    as (inner & st1 & inames & st2 & copy_expr & id & st3 & _ & Hinner
        & Hinames & Hrender & Hid & _ & ->); [|done].
  apply generated_names in Hinames
    as (Hlen & Hnd & Hnew & Hex & _ & Hk2 & _ & _).
  apply call_insn_id_gen_Ok in Hid as (_ & Hk3 & _ & Hg3 & _).
  exists inner, st1, inames, copy_expr, id.
  rewrite length_seq in Hlen.
  split_and!; try done; simpl.
  - intros i Hi. rewrite Hg3, Hex. set_solver.
  - by rewrite Hk3, Hk2.
  - intros context. destruct inner as [n ? ?|e ? ?|? ?]; simpl in *;
      [destruct (prim_Variable <$> inames)| |];
      unfold ret, raise in *; by simplify_eq.
  - by rewrite Hk3, Hk2.
  - by rewrite Hk3, Hk2.
Qed.

Lemma output_domain_matches_shape_witness :
  ∃ (inner : GeneratedResult) (st1 : CodeGenState) (inames : list string)
    (copy_expr : ScalarExpression) (id : string),
    CodeGenMapper_rec 1 x10 (initial_state []) = (Ok inner, st1)
    ∧ length inames = length [prim_Const 10]
    ∧ NoDup inames
    ∧ (∀ i, i ∈ inames → i ∉ existing_names (var_name_gen st1))
    ∧ (∀ i, i ∈ inames →
         i ∈ existing_names
               (var_name_gen
                  (CodeGenMapper_rec 2 out_x10 (initial_state [])).2))
    ∧ domains (kernel (CodeGenMapper_rec 2 out_x10 (initial_state [])).2)
      = domains (kernel st1)
        ++ [ {| dim_names := inames; dim_extents := [prim_Const 10] |} ]
    ∧ (∀ context,
         to_loopy_expression inner (prim_Variable <$> inames) context
         = (Ok copy_expr, context))
    ∧ instructions (kernel (CodeGenMapper_rec 2 out_x10 (initial_state [])).2)
      = instructions (kernel st1)
        ++ [ {| insn_assignees :=
                  [prim_Subscript (prim_Variable "out")
                     (prim_Variable <$> inames)];
                insn_expression := copy_expr;
                insn_id := id;
                insn_within_inames := list_to_set inames;
                insn_depends_on := ∅ |} ]
    ∧ args (kernel (CodeGenMapper_rec 2 out_x10 (initial_state [])).2)
      = args (kernel st1)
        ++ [ {| arg_name := "out"; arg_shape := [prim_Const 10];
                arg_dtype := float64;
                arg_order := "C"; is_output_only := true |} ].
Proof.
  apply (output_domain_matches_shape 1 2 "out" x10 [prim_Const 10] float64
           (initial_state [])
           (CodeGenMapper_rec 2 out_x10 (initial_state [])).2
           (ArrayResult "out" (PyDtype float64) (PyTuple [prim_Const 10]))).
  - reflexivity.
  - vm_compute. reflexivity.
Defined.

(** ** Lowering an index lambda (C8) *)

Lemma with_state_same context : with_state (state context) context = context.
Proof. by destruct context. Qed.

Lemma mapM_unchanged {S A B} (f : A → M S B) l s :
  Forall (λ x, (f x s).2 = s) l → (mapM f l s).2 = s.
Proof.
  induction 1 as [|x l Hx _ IH]; simpl; [done|].
  unfold bind. destruct (f x s) as [[y|e] s1]; simpl in Hx; subst s1; [|done].
  by destruct (mapM f l s) as [[ys|e] s2]; simpl in IH; subst s2.
Qed.

Lemma reference_to_lowered fuel name index context :
  lowered_before (state context) name →
  ((let* node := namespace_getitem name in
    let* result := on_state (CodeGenMapper_rec fuel node) in
    to_loopy_expression result index) context).2 = context.
Proof.
  intros (a & r & Hget & Hm & Hc).
  unfold bind, namespace_getitem, on_state. rewrite Hget.
  destruct fuel as [|fuel].
  - simpl. apply with_state_same.
  - rewrite (cached_node_returned fuel a (state context) r) by done.
    rewrite with_state_same.
    pose proof (to_loopy_expression_context r index context) as H.
    by destruct (to_loopy_expression r index context) as [[?|?] ?].
Qed.

(** Rewriting an expression all of whose references are to nodes lowered
    before changes nothing: not the kernel, not the cache, not the context. *)
Lemma rewriter_on_lowered fuel e context :
  Forall (lowered_before (state context)) (references e) →
  (LoopyExpressionGenMapper_call fuel e context).2 = context.
Proof.
  unfold LoopyExpressionGenMapper_call.
  induction e as [z|name|a idx _ _|cs IH|cs IH]
    using ScalarExpression_deep_ind; simpl; intros Hrefs.
  - done.
  - apply reference_to_lowered. by apply Forall_inv in Hrefs.
  - destruct a; try done. apply reference_to_lowered. by apply Forall_inv in Hrefs.
  - unfold bind.
    assert ((mapM (LoopyExpressionGenMapper_rec (CodeGenMapper_rec fuel)) cs
               context).2 = context) as Hcs.
    { apply mapM_unchanged. induction IH as [|c cs Hc _ IHcs]; [done|].
      simpl in Hrefs. apply Forall_app in Hrefs as [? ?].
      constructor; auto. }
    by destruct (mapM _ cs context) as [[?|?] ?].
  - unfold bind.
    assert ((mapM (LoopyExpressionGenMapper_rec (CodeGenMapper_rec fuel)) cs
               context).2 = context) as Hcs.
    { apply mapM_unchanged. induction IH as [|c cs Hc _ IHcs]; [done|].
      simpl in Hrefs. apply Forall_app in Hrefs as [? ?].
      constructor; auto. }
    by destruct (mapM _ cs context) as [[?|?] ?].
Qed.

Lemma Array_Forall_all P a : (∀ n, P n) → Array_Forall P a.
Proof.
  intros HP. induction a as [| | ? ? ? ? bindings IH|] using Array_deep_ind;
    simpl; split_and?; auto.
  apply bindings_Forall. exact IH.
Qed.


(** A call of the walker that returns leaves the namespace chain as it found
    it: every scope pushed on the way has been popped. *)
Lemma chain_balanced fuel a st r st' :
  CodeGenMapper_rec fuel a st = (Ok r, st') → namespace st' = namespace st.
Proof.
  intros Hrun.
  eapply (CodeGenMapper_rec_kept (λ _, True) (λ _, True)) in Hrun
    as (Hns & _ & _); try done.
  - by apply Array_Forall_all.
  - apply Forall_forall. intros m _. apply Forall_forall. intros kv _.
    by apply Array_Forall_all.
Qed.

(** C8: a first visit of an [IndexLambda] that returns has rewritten the body
    on a fresh context of the state with the bindings pushed, and caches the
    [LoopyExpressionResult] of the rewritten body with the node's shape and
    dtype.  Apart from the cache entry the state is the one the rewrite of
    the body ended in, with the pushed scope popped: the kernel and both name
    generators are those the rewrite left, so the lambda itself adds no
    argument, domain or instruction.  When every name the body refers to
    resolves to a node lowered before, the rewrite changes nothing and the
    kernel is the one before the visit. *)
Theorem index_lambda_adds_nothing_to_kernel
    (fuel uid : nat) (e : ScalarExpression) (shape : ShapeType)
    (dtype : np_dtype) (bindings : Mapping) (st st' : CodeGenState)
    (r : GeneratedResult) :
  results st !! uid = None →
  CodeGenMapper_rec (S fuel) (IndexLambda uid e shape dtype bindings) st
    = (Ok r, st') →
  ∃ (loopy_expr : ScalarExpression) (context : LoopyExpressionContext),
    LoopyExpressionGenMapper_call fuel e
      (make_expression_context (set_namespace (bindings :: namespace st) st))
    = (Ok loopy_expr, context)
    ∧ r = LoopyExpressionResult loopy_expr (PyTuple shape) (PyDtype dtype)
    ∧ results st' = <[uid := r]> (results (state context))
    ∧ kernel st' = kernel (state context)
    ∧ var_name_gen st' = var_name_gen (state context)
    ∧ insn_id_gen st' = insn_id_gen (state context)
    ∧ namespace st' = namespace st
    ∧ (Forall (lowered_before (set_namespace (bindings :: namespace st) st))
         (references e) →
       kernel st' = kernel st ∧ results st' = <[uid := r]> (results st)).
Proof.
  intros Hfresh Hrun.
  pose proof (chain_balanced _ _ _ _ _ Hrun) as Hns.
  simpl in Hrun.
  apply map_index_lambda_first_visit in Hrun
    as (loopy_expr & context & Hbody & -> & ->); [|done].
  exists loopy_expr, context. split_and!; try done.
  intros Hrefs.
  pose proof (rewriter_on_lowered fuel e
                (make_expression_context
                   (set_namespace (bindings :: namespace st) st)) Hrefs) as H.
  unfold LoopyExpressionGenMapper_call in H. rewrite Hbody in H.
  simpl in H. by subst context.
Qed.

Lemma index_lambda_adds_nothing_to_kernel_witness :
  ∃ (loopy_expr : ScalarExpression) (context : LoopyExpressionContext),
    LoopyExpressionGenMapper_call 1 sum_of_a_and_b
      (make_expression_context
         (set_namespace (two_placeholders :: namespace after_two_placeholders)
            after_two_placeholders))
    = (Ok loopy_expr, context)
    ∧ LoopyExpressionResult sum_of_a_and_b
        (PyTuple [prim_Const 5]) (PyDtype float64)
      = LoopyExpressionResult loopy_expr (PyTuple [prim_Const 5]) (PyDtype float64)
    ∧ results (CodeGenMapper_rec 2 a_plus_b after_two_placeholders).2
      = <[3 := LoopyExpressionResult sum_of_a_and_b
                 (PyTuple [prim_Const 5]) (PyDtype float64)]>
          (results (state context))
    ∧ kernel (CodeGenMapper_rec 2 a_plus_b after_two_placeholders).2
      = kernel (state context)
    ∧ var_name_gen (CodeGenMapper_rec 2 a_plus_b after_two_placeholders).2
      = var_name_gen (state context)
    ∧ insn_id_gen (CodeGenMapper_rec 2 a_plus_b after_two_placeholders).2
      = insn_id_gen (state context)
    ∧ namespace (CodeGenMapper_rec 2 a_plus_b after_two_placeholders).2
      = namespace after_two_placeholders
    ∧ (Forall (lowered_before
                 (set_namespace
                    (two_placeholders :: namespace after_two_placeholders)
                    after_two_placeholders))
         (references sum_of_a_and_b) →
       kernel (CodeGenMapper_rec 2 a_plus_b after_two_placeholders).2
       = kernel after_two_placeholders
       ∧ results (CodeGenMapper_rec 2 a_plus_b after_two_placeholders).2
         = <[3 := LoopyExpressionResult sum_of_a_and_b
                    (PyTuple [prim_Const 5]) (PyDtype float64)]>
             (results after_two_placeholders)).
Proof.
  apply (index_lambda_adds_nothing_to_kernel 1 3 sum_of_a_and_b
           [prim_Const 5] float64 two_placeholders after_two_placeholders
           (CodeGenMapper_rec 2 a_plus_b after_two_placeholders).2
           (LoopyExpressionResult sum_of_a_and_b
              (PyTuple [prim_Const 5]) (PyDtype float64))).
  - reflexivity.
  - vm_compute. reflexivity.
Defined.

(** ** Instruction dependencies (C10) *)

Section RewriterContext.
Variable rec : Array → M CodeGenState GeneratedResult.

(** The rewriter hands its context on as it got it, apart from the state
    behind it: on every path, failing ones included, the dependency set and
    the reduction bounds at the end are those at the start. *)
Lemma rewriter_keeps_context expr (D : gset string) R context :
  _depends_on context = D ∧ reduction_bounds context = R →
  wp (LoopyExpressionGenMapper_rec rec expr)
     (λ _ context', _depends_on context' = D ∧ reduction_bounds context' = R)
     context.
Proof.
  assert (∀ name index context,
            _depends_on context = D ∧ reduction_bounds context = R →
            wp (let* node := namespace_getitem name in
                let* result := on_state (rec node) in
                to_loopy_expression result index)
               (λ _ context',
                  _depends_on context' = D ∧ reduction_bounds context' = R)
               context) as Href.
  { intros name index c Hc. apply wp_bind_run.
    - intros node c1 (_ & ->)%namespace_getitem_Ok. apply wp_bind_run.
      + intros result c2 (st' & _ & ->)%on_state_Ok. unfold wp.
        by rewrite to_loopy_expression_context.
      + intros e c2. unfold on_state. destruct (rec node (state c)).
        by intros [= _ <-].
    - intros e c1. unfold namespace_getitem.
      destruct (ChainMap_get _ _); [done|]. by intros [= _ <-]. }
  revert context.
  induction expr as [z|name|a idx _ _|cs IH|cs IH]
    using ScalarExpression_deep_ind; intros context Hc; simpl.
  - by apply wp_ret.
  - by apply Href.
  - destruct a; try by apply wp_raise. by apply Href.
  - apply wp_bind.
    apply (wp_mapM _ (λ c, _depends_on c = D ∧ reduction_bounds c = R));
      [|by intros [?|?] ?|done].
    intros c s0 Hin Hs0. rewrite Forall_forall in IH.
    eapply wp_mono; [|by apply IH]. done.
  - apply wp_bind.
    apply (wp_mapM _ (λ c, _depends_on c = D ∧ reduction_bounds c = R));
      [|by intros [?|?] ?|done].
    intros c s0 Hin Hs0. rewrite Forall_forall in IH.
    eapply wp_mono; [|by apply IH]. done.
Qed.
End RewriterContext.

(** Every instruction of the kernel has an empty dependency set, once the
    walker returns, if it was so before. *)
Lemma lowering_keeps_no_dependencies fuel a st r st' :
  no_dependencies st →
  CodeGenMapper_rec fuel a st = (Ok r, st') → no_dependencies st'.
Proof.
  intros Hst Hrun.
  eapply (CodeGenMapper_rec_kept (λ _, True) no_dependencies) in Hrun
    as (_ & _ & ?); try done.
  - intros uid name array shape dtype inames copy_expr id s _ Hs.
    unfold no_dependencies. simpl. apply Forall_app. split; [done|].
    by constructor.
  - by apply Array_Forall_all.
  - apply Forall_forall. intros m _. apply Forall_forall. intros kv _.
    by apply Array_Forall_all.
Qed.

Lemma lower_namespace_no_dependencies fuel ns rs st :
  lower_namespace fuel ns = (Ok rs, st) → no_dependencies st.
Proof.
  unfold lower_namespace. intros Hrun.
  eapply (mapM_Ok_invariant _ no_dependencies); [| |exact Hrun].
  - apply Forall_forall. intros kv _ s y s' Hs Hkv.
    by eapply lowering_keeps_no_dependencies.
  - constructor.
Qed.

(** C10: every instruction of a program that [generate_loopy] returns has an
    empty dependency set.  A new context has an empty dependency set,
    rendering a result and rewriting an expression leave the dependency set
    of their context as it is whether they return or raise, and [map_output]
    emits its instruction only past the assertion that the set is empty. *)
Theorem emitted_instructions_have_no_dependencies :
  (∀ st : CodeGenState, depends_on (make_expression_context st) = ∅)
  ∧ (∀ (self : GeneratedResult) (indices : SymbolicIndex)
       (context : LoopyExpressionContext),
       depends_on (to_loopy_expression self indices context).2
       = depends_on context)
  ∧ (∀ (fuel : nat) (e : ScalarExpression) (context : LoopyExpressionContext),
       depends_on (LoopyExpressionGenMapper_call fuel e context).2
       = depends_on context)
  ∧ (∀ (fuel : nat) (input : GraphInput) (target : option Target)
       (bp : BoundProgram),
       generate_loopy fuel input target = Ok bp →
       Forall (λ insn, insn_depends_on insn = ∅) (instructions (program bp))).
Proof.
  split_and!.
  - done.
  - intros. by rewrite to_loopy_expression_context.
  - intros fuel e context.
    by destruct (rewriter_keeps_context (CodeGenMapper_rec fuel) e
                   (_depends_on context) (reduction_bounds context) context).
  - intros fuel input target bp. unfold generate_loopy.
    destruct (lower_namespace fuel (get_namespace input)) as [[rs|e] st] eqn:Hrun;
      [|discriminate].
    intros [= <-]. simpl. by eapply lower_namespace_no_dependencies.
Qed.

Lemma emitted_instructions_have_no_dependencies_witness :
  Forall (λ insn, insn_depends_on insn = ∅)
    (instructions
       (program
          {| program := kernel (lower_namespace 5
                                  (get_namespace (FromArray x10 namespace_x10))).2;
             bound_arguments := [];
             target := PyOpenCLTarget |})).
Proof.
  apply (proj2 (proj2 (proj2 emitted_instructions_have_no_dependencies))
           5 (FromArray x10 namespace_x10) None).
  vm_compute. reflexivity.
Defined.

(** ** The default output name (C9) *)


Lemma copy_namespace_id ns : copy_namespace ns = ns.
Proof.
  unfold copy_namespace, copy_mapper.
  induction ns as [|[k v] ns IH]; [done|].
  rewrite fmap_cons. by f_equal.
Qed.







Section DefaultOutput.
Variable a : Array.
Variable ns : Namespace.





End DefaultOutput.


(** ** More fuel changes no result *)

Lemma bind_Ok_intro {S A B} (m : M S A) (k : A → M S B) s a s1 res :
  m s = (Ok a, s1) → k a s1 = res → bind m k s = res.
Proof. unfold bind. by intros -> ->. Qed.

Lemma mapM_Ok_mono {S A B} (f g : A → M S B) l :
  Forall (λ x, ∀ s y s', f x s = (Ok y, s') → g x s = (Ok y, s')) l →
  ∀ s ys s', mapM f l s = (Ok ys, s') → mapM g l s = (Ok ys, s').
Proof.
  induction 1 as [|x l Hx _ IH]; intros s ys s' Hrun; simpl in *; [done|].
  apply bind_Ok in Hrun as (y & s1 & Hy & Hrun).
  apply bind_Ok in Hrun as (ys' & s2 & Hys & Hrun).
  eapply bind_Ok_intro; [by apply Hx|].
  eapply bind_Ok_intro; [by apply IH|done].
Qed.

Section Monotone.
(** Two walkers, the second returning whatever the first returns. *)
Variables rec1 rec2 : Array → M CodeGenState GeneratedResult.
Hypothesis rec_mono : ∀ a st r st',
  rec1 a st = (Ok r, st') → rec2 a st = (Ok r, st').

Lemma reference_mono name index context e context' :
  (let* node := namespace_getitem name in
   let* result := on_state (rec1 node) in
   to_loopy_expression result index) context = (Ok e, context') →
  (let* node := namespace_getitem name in
   let* result := on_state (rec2 node) in
   to_loopy_expression result index) context = (Ok e, context').
Proof.
  intros Hrun.
  apply bind_Ok in Hrun as (node & c1 & Hget & Hrun).
  apply bind_Ok in Hrun as (result & c2 & Hrec & Hrun).
  apply on_state_Ok in Hrec as (st' & Hrec%rec_mono & ->).
  pose proof Hget as (_ & ->)%namespace_getitem_Ok.
  eapply bind_Ok_intro; [exact Hget|].
  eapply bind_Ok_intro; [|exact Hrun].
  unfold on_state. by rewrite Hrec.
Qed.

Lemma LoopyExpressionGenMapper_rec_mono expr :
  ∀ context e context',
    LoopyExpressionGenMapper_rec rec1 expr context = (Ok e, context') →
    LoopyExpressionGenMapper_rec rec2 expr context = (Ok e, context').
Proof.
  induction expr as [z|name|a idx _ _|cs IH|cs IH]
    using ScalarExpression_deep_ind; intros context e context' Hrun;
    simpl in *.
  - done.
  - by apply reference_mono.
  - destruct a; try done. by apply reference_mono.
  - apply bind_Ok in Hrun as (cs' & c1 & Hcs & Hrun).
    eapply bind_Ok_intro; [|exact Hrun]. by eapply mapM_Ok_mono.
  - apply bind_Ok in Hrun as (cs' & c1 & Hcs & Hrun).
    eapply bind_Ok_intro; [|exact Hrun]. by eapply mapM_Ok_mono.
Qed.

Lemma map_output_mono uid name array shape dtype st r st' :
  map_output rec1 uid name array shape dtype st = (Ok r, st') →
  map_output rec2 uid name array shape dtype st = (Ok r, st').
Proof.
  unfold map_output. intros Hrun.
  apply bind_Ok in Hrun as (cached & s0 & Hget & Hrun).
  eapply bind_Ok_intro; [exact Hget|].
  destruct cached; [done|].
  apply bind_Ok in Hrun as (u & s1 & Hassert & Hrun).
  eapply bind_Ok_intro; [exact Hassert|].
  apply bind_Ok in Hrun as (inner & s2 & Hinner%rec_mono & Hrun).
  by eapply bind_Ok_intro.
Qed.

Lemma map_index_lambda_mono uid e shape dtype bindings st r st' :
  map_index_lambda rec1 uid e shape dtype bindings st = (Ok r, st') →
  map_index_lambda rec2 uid e shape dtype bindings st = (Ok r, st').
Proof.
  unfold map_index_lambda. intros Hrun.
  apply bind_Ok in Hrun as (cached & s0 & Hget & Hrun).
  eapply bind_Ok_intro; [exact Hget|].
  destruct cached; [done|].
  apply bind_Ok in Hrun as (rewritten & s1 & Hbody & Hrun).
  eapply bind_Ok_intro; [|exact Hrun].
  apply chain_namespaces_Ok in Hbody as (s2 & Hbody & ->).
  apply with_context_Ok in Hbody as (Hbody%LoopyExpressionGenMapper_rec_mono & ->).
  unfold chain_namespaces, with_context. rewrite Hbody.
  by destruct rewritten.
Qed.
End Monotone.

(** A result obtained within some recursion depth is the result within any
    larger depth: the bound only decides whether the recursion is cut off. *)
Lemma CodeGenMapper_rec_more_fuel (fuel fuel' : nat) a st r st' :
  (fuel ≤ fuel')%nat →
  CodeGenMapper_rec fuel a st = (Ok r, st') →
  CodeGenMapper_rec fuel' a st = (Ok r, st').
Proof.
  revert fuel' a st r st'.
  induction fuel as [|fuel IH]; intros fuel' a st r st' Hle Hrun; [done|].
  destruct fuel' as [|fuel']; [lia|].
  destruct a; simpl in *; [done| | |done].
  - eapply map_output_mono; [|exact Hrun]. intros. apply (IH fuel'); [lia|done].
  - eapply map_index_lambda_mono; [|exact Hrun].
    intros. apply (IH fuel'); [lia|done].
Qed.

Lemma generate_loopy_more_fuel (fuel fuel' : nat) input target bp :
  (fuel ≤ fuel')%nat →
  generate_loopy fuel input target = Ok bp →
  generate_loopy fuel' input target = Ok bp.
Proof.
  intros Hle. unfold generate_loopy, lower_namespace.
  destruct (mapM _ _ _) as [[rs|e] st] eqn:Hrun; [|done].
  intros [= <-].
  eapply (mapM_Ok_mono _ (λ kv, CodeGenMapper_rec fuel' kv.2)) in Hrun.
  - by rewrite Hrun.
  - apply Forall_forall. intros kv _ s y s'.
    by apply CodeGenMapper_rec_more_fuel.
Qed.

(** ** The namespace chain on every exit path (C2) *)

Lemma grows_refl st : grows st st.
Proof. by exists []. Qed.

Lemma grows_trans st0 st1 st2 : grows st0 st1 → grows st1 st2 → grows st0 st2.
Proof.
  intros [e1 H1] [e2 H2]. exists (e2 ++ e1). by rewrite H2, H1, app_assoc.
Qed.

Lemma grows_same st st' : namespace st' = namespace st → grows st st'.
Proof. intros H. by exists []. Qed.

Section Grows.
Variable rec : Array → M CodeGenState GeneratedResult.
Hypothesis rec_grows : ∀ a st, wp (rec a) (λ _ st', grows st st') st.

Lemma reference_grows name index st0 context :
  grows st0 (state context) →
  wp (let* node := namespace_getitem name in
      let* result := on_state (rec node) in
      to_loopy_expression result index)
     (λ _ context', grows st0 (state context')) context.
Proof.
  intros Hg. apply wp_bind_run.
  - intros node c1 (_ & ->)%namespace_getitem_Ok.
    pose proof (rec_grows node (state context)) as Hrec. unfold wp in Hrec.
    apply wp_bind_run.
    + intros result c2 (st' & Hrun & ->)%on_state_Ok. rewrite Hrun in Hrec.
      unfold wp. rewrite to_loopy_expression_context. simpl.
      by eapply grows_trans.
    + intros e c2. unfold on_state.
      destruct (rec node (state context)) as [r st']. intros [= _ <-].
      simpl. by eapply grows_trans.
  - intros e c1. unfold namespace_getitem.
    destruct (ChainMap_get _ _); [done|]. by intros [= _ <-].
Qed.

Lemma LoopyExpressionGenMapper_rec_grows expr st0 context :
  grows st0 (state context) →
  wp (LoopyExpressionGenMapper_rec rec expr)
     (λ _ context', grows st0 (state context')) context.
Proof.
  revert context.
  induction expr as [z|name|a idx _ _|cs IH|cs IH]
    using ScalarExpression_deep_ind; intros context Hg; simpl.
  - by apply wp_ret.
  - by apply reference_grows.
  - destruct a; try by apply wp_raise. by apply reference_grows.
  - apply wp_bind.
    apply (wp_mapM _ (λ c, grows st0 (state c))); [|by intros [?|?] ?|done].
    intros c s0 Hin Hs0. rewrite Forall_forall in IH. by apply IH.
  - apply wp_bind.
    apply (wp_mapM _ (λ c, grows st0 (state c))); [|by intros [?|?] ?|done].
    intros c s0 Hin Hs0. rewrite Forall_forall in IH. by apply IH.
Qed.

(** The body of an index lambda, run with the bindings pushed: if it raises,
    the bindings are still in the chain, in front of the scopes that were
    there before. *)
Lemma chain_namespaces_body_raises e bindings st exn st' :
  chain_namespaces bindings (with_context (LoopyExpressionGenMapper_rec rec e))
    st = (Raise exn, st') →
  ∃ extra, namespace st' = extra ++ bindings :: namespace st.
Proof.
  unfold chain_namespaces, with_context.
  pose proof (LoopyExpressionGenMapper_rec_grows e
                (set_namespace (bindings :: namespace st) st)
                (make_expression_context
                   (set_namespace (bindings :: namespace st) st))
                (grows_refl _)) as Hg.
  unfold wp in Hg.
  destruct (LoopyExpressionGenMapper_rec rec e _) as [[x|exn'] context];
    [discriminate|].
  by intros [= _ <-].
Qed.
End Grows.

Lemma CodeGenMapper_rec_grows fuel a st :
  wp (CodeGenMapper_rec fuel a) (λ _ st', grows st st') st.
Proof.
  revert a st. induction fuel as [|fuel IH]; intros a st;
    [apply grows_refl|].
  destruct a as [uid name shape dtype|uid name array shape dtype
                |uid e shape dtype bindings|uid shape dtype]; simpl;
    [| | |apply grows_refl].
  - unfold map_placeholder. apply wp_bind, wp_gets.
    destruct (results st !! uid); [apply grows_refl|].
    apply wp_bind, wp_gets, wp_bind, wp_modify, wp_bind, wp_modify, wp_ret.
    by apply grows_same.
  - unfold map_output. apply wp_bind, wp_gets.
    destruct (results st !! uid); [apply grows_refl|].
    apply wp_bind, wp_assert; intros _; [|apply grows_refl].
    pose proof (IH array st) as Hinner. unfold wp in Hinner.
    apply wp_bind_run; [|by intros e s1 Hrun; rewrite Hrun in Hinner].
    intros inner st1 Hrun. rewrite Hrun in Hinner. simpl in Hinner.
    apply wp_bind.
    apply (wp_mapM _ (λ s, grows st s)); [| |done].
    { intros d s0 _ Hs0. unfold wp, call_var_name_gen.
      destruct (UniqueNameGenerator_call _ _). simpl.
      eapply grows_trans; [exact Hs0|]. by apply grows_same. }
    intros [inames|?] st2 Hst2; [|done].
    apply wp_bind_run.
    2:{ intros e s3. unfold with_context.
        pose proof (to_loopy_expression_context inner
                      (prim_Variable <$> inames) (make_expression_context st2))
          as Hctx.
        destruct (to_loopy_expression _ _ _) as [[?|?] c]; [done|].
        simpl in Hctx. subst c. by intros [= _ <-]. }
    intros rendered s3 (-> & _ & _)%with_context_to_loopy_expression.
    apply wp_bind, wp_assert; intros _; [|done].
    apply wp_bind, wp_assert; intros _; [|done].
    apply wp_bind_run.
    2:{ intros e s4. unfold call_insn_id_gen.
        by destruct (UniqueNameGenerator_call _ _). }
    intros id st3 (Hns & _)%call_insn_id_gen_Ok.
    apply wp_bind, wp_gets, wp_bind, wp_modify, wp_bind, wp_modify, wp_ret.
    eapply grows_trans; [exact Hst2|]. by apply grows_same.
  - unfold map_index_lambda. apply wp_bind, wp_gets.
    destruct (results st !! uid); [apply grows_refl|].
    apply wp_bind_run.
    + intros rewritten st1 (s2 & Hbody & ->)%chain_namespaces_Ok.
      apply with_context_Ok in Hbody as (Hbody & ->).
      apply wp_bind, wp_modify, wp_ret. simpl.
      pose proof (LoopyExpressionGenMapper_rec_grows _ IH e
                    (set_namespace ((bindings : Mapping) :: namespace st) st)
                    (make_expression_context
                       (set_namespace ((bindings : Mapping) :: namespace st) st))
                    (grows_refl _)) as Hg.
      unfold wp in Hg. rewrite Hbody in Hg. simpl in Hg.
      destruct Hg as [extra ->]. destruct extra as [|m extra]; simpl.
      * by exists [].
      * exists (extra ++ [bindings]). by rewrite <- app_assoc.
    + intros exn st1 (extra & Hextra)%(chain_namespaces_body_raises _ IH).
      exists (extra ++ [bindings]). by rewrite Hextra, <- app_assoc.
Qed.

(** C2: the scope [chain_namespaces] pushes is not popped when the rewrite of
    the body raises.  Every first visit of an index lambda that ends in an
    exception leaves the chain with the lambda's bindings still pushed,
    possibly below further scopes: the chain is longer than before the visit,
    so it is not the chain before the visit. *)
Theorem aborted_index_lambda_leaves_bindings_pushed
    (fuel uid : nat) (e : ScalarExpression) (shape : ShapeType)
    (dtype : np_dtype) (bindings : Mapping) (st st' : CodeGenState)
    (exn : Exn) :
  results st !! uid = None →
  CodeGenMapper_rec (S fuel) (IndexLambda uid e shape dtype bindings) st
    = (Raise exn, st') →
  (∃ extra, namespace st' = extra ++ bindings :: namespace st)
  ∧ namespace st' ≠ namespace st.
Proof.
  intros Hfresh Hrun. simpl in Hrun.
  unfold map_index_lambda, bind at 1, gets in Hrun. rewrite Hfresh in Hrun.
  unfold bind at 1 in Hrun.
  destruct (chain_namespaces _ _ st) as [[rewritten|exn'] st1] eqn:Hbody;
    [discriminate|].
  injection Hrun as _ <-.
  apply (chain_namespaces_body_raises _ (CodeGenMapper_rec_grows fuel))
    in Hbody as [extra Hextra].
  split; [by exists extra|].
  intros Heq. rewrite Hextra in Heq. apply (f_equal length) in Heq.
  rewrite length_app in Heq. simpl in Heq. lia.
Qed.

Lemma aborted_index_lambda_leaves_bindings_pushed_witness :
  (∃ extra,
     namespace (CodeGenMapper_rec 2 unbound_lambda (initial_state [])).2
     = extra ++ [] :: namespace (initial_state []))
  ∧ namespace (CodeGenMapper_rec 2 unbound_lambda (initial_state [])).2
    ≠ namespace (initial_state []).
Proof.
  apply (aborted_index_lambda_leaves_bindings_pushed 1 7 (prim_Variable "z")
           [prim_Const 4] float64 [] (initial_state [])
           (CodeGenMapper_rec 2 unbound_lambda (initial_state [])).2
           (KeyError "z")).
  - reflexivity.
  - vm_compute. reflexivity.
Defined.

(** ** An invariant on every exit path *)

Lemma mapM_cons {S A B} (f : A → M S B) x l :
  mapM f (x :: l)
  = (let* y := f x in let* ys := mapM f l in ret (y :: ys)).
Proof. reflexivity. Qed.

Lemma generated_names_Ok (f : nat → string) l st :
  ∃ inames st', mapM (λ d, call_var_name_gen (f d)) l st = (Ok inames, st').
Proof.
  revert st. induction l as [|d l IH]; intros st; [by eexists _, _|].
  rewrite mapM_cons. unfold bind. unfold call_var_name_gen at 1.
  destruct (UniqueNameGenerator_call _ _) as [n g].
  destruct (IH (with_var_name_gen g st)) as (inames & st' & ->).
  by eexists _, _.
Qed.

Lemma call_insn_id_gen_existing based_on st id st' :
  call_insn_id_gen based_on st = (Ok id, st') →
  existing_names (insn_id_gen st')
  = {[ id ]} ∪ existing_names (insn_id_gen st).
Proof.
  unfold call_insn_id_gen.
  pose proof (UniqueNameGenerator_call_fresh (insn_id_gen st) based_on) as [_ H].
  destruct (UniqueNameGenerator_call _ _) as [n g].
  by intros [= <- <-].
Qed.

Section Always.
(** As for [kept], but on every exit path: [P] holds of every node the pass
    can reach, and [I] is a property of the state that each step of the walker
    keeps.  The steps of an output are given with the calls of the generators
    that precede the update of the kernel. *)
Variable P : Array → Prop.
Variable I : CodeGenState → Prop.
Hypothesis I_namespace : ∀ maps st, I st → I (set_namespace maps st).
Hypothesis I_var_name_gen : ∀ based_on st,
  I st → I (call_var_name_gen based_on st).2.
Hypothesis I_placeholder : ∀ uid name shape dtype st,
  P (Placeholder uid name shape dtype) → results st !! uid = None → I st →
  I (placeholder_visited uid name shape dtype st).
Hypothesis I_output :
  ∀ uid name array shape dtype st1 inames st2 copy_expr id st3,
    P (Output uid name array shape dtype) → shape ≠ [] → I st1 →
    mapM (λ d, call_var_name_gen (name +:+ "_dim" +:+ pretty d))
      (seq 0 (length shape)) st1 = (Ok inames, st2) →
    call_insn_id_gen (name +:+ "_copy") st2 = (Ok id, st3) →
    I (output_visited uid name shape dtype inames copy_expr id st3).
Hypothesis I_index_lambda : ∀ uid e shape dtype bindings loopy_expr st,
  P (IndexLambda uid e shape dtype bindings) → I st →
  I (index_lambda_visited uid loopy_expr shape dtype st).

Lemma generated_names_always (f : nat → string) l st inames st' :
  always P I st →
  mapM (λ d, call_var_name_gen (f d)) l st = (Ok inames, st') →
  always P I st'.
Proof.
  intros Hst Hrun.
  eapply (mapM_Ok_invariant _ (always P I)); [|exact Hst|exact Hrun].
  apply Forall_forall. intros d _ s y s' [Hc Hs] Hd.
  pose proof (I_var_name_gen (f d) s Hs) as HI. rewrite Hd in HI.
  split; [|done]. unfold call_var_name_gen in Hd.
  destruct (UniqueNameGenerator_call _ _). by injection Hd as _ <-.
Qed.

Section RewriterAlways.
Variable rec : Array → M CodeGenState GeneratedResult.
Hypothesis rec_always : ∀ a st,
  Array_Forall P a → always P I st → wp (rec a) (λ _ st', always P I st') st.

Lemma reference_always name index context :
  always P I (state context) →
  wp (let* node := namespace_getitem name in
      let* result := on_state (rec node) in
      to_loopy_expression result index)
     (λ _ context', always P I (state context')) context.
Proof.
  intros Hst. apply wp_bind_run.
  - intros node c1 (Hget & ->)%namespace_getitem_Ok.
    assert (Array_Forall P node) as Hnode
      by (destruct Hst; by eapply ChainMap_get_Forall).
    pose proof (rec_always node (state context) Hnode Hst) as Hrec.
    unfold wp in Hrec. apply wp_bind_run.
    + intros result c2 (st' & Hrun & ->)%on_state_Ok. rewrite Hrun in Hrec.
      unfold wp. by rewrite to_loopy_expression_context.
    + intros e c2. unfold on_state.
      destruct (rec node (state context)) as [r st']. by intros [= _ <-].
  - intros e c1. unfold namespace_getitem.
    destruct (ChainMap_get _ _); [done|]. by intros [= _ <-].
Qed.

Lemma LoopyExpressionGenMapper_rec_always expr context :
  always P I (state context) →
  wp (LoopyExpressionGenMapper_rec rec expr)
     (λ _ context', always P I (state context')) context.
Proof.
  revert context.
  induction expr as [z|name|a idx _ _|cs IH|cs IH]
    using ScalarExpression_deep_ind; intros context Hst; simpl.
  - by apply wp_ret.
  - by apply reference_always.
  - destruct a; try by apply wp_raise. by apply reference_always.
  - apply wp_bind.
    apply (wp_mapM _ (λ c, always P I (state c))); [|by intros [?|?] ?|done].
    intros c s0 Hin Hs0. rewrite Forall_forall in IH. by apply IH.
  - apply wp_bind.
    apply (wp_mapM _ (λ c, always P I (state c))); [|by intros [?|?] ?|done].
    intros c s0 Hin Hs0. rewrite Forall_forall in IH. by apply IH.
Qed.
End RewriterAlways.

Lemma CodeGenMapper_rec_always fuel :
  ∀ a st, Array_Forall P a → always P I st →
          wp (CodeGenMapper_rec fuel a) (λ _ st', always P I st') st.
Proof.
  induction fuel as [|fuel IH]; intros a st Ha Hst; [done|].
  pose proof (Array_Forall_here _ _ Ha) as HP.
  destruct a as [uid name shape dtype|uid name array shape dtype
                |uid e shape dtype bindings|uid shape dtype]; simpl;
    [| | |done].
  - unfold map_placeholder. apply wp_bind, wp_gets.
    destruct (results st !! uid) eqn:Hc; [done|].
    apply wp_bind, wp_gets, wp_bind, wp_modify, wp_bind, wp_modify, wp_ret.
    destruct Hst as [Hchain HI]. split; [done|].
    exact (I_placeholder uid name shape dtype st HP Hc HI).
  - unfold map_output. apply wp_bind, wp_gets.
    destruct (results st !! uid) eqn:Hc; [done|].
    apply wp_bind, wp_assert; [intros Hshape|done].
    destruct Ha as [_ Harray].
    pose proof (IH array st Harray Hst) as Hinner. unfold wp in Hinner.
    apply wp_bind_run; [|by intros e s1 Hrun; rewrite Hrun in Hinner].
    intros inner st1 Hrun. rewrite Hrun in Hinner. simpl in Hinner.
    apply wp_bind_run.
    2:{ intros e s2 Hnames.
        destruct (generated_names_Ok
                    (λ d, name +:+ "_dim" +:+ pretty d)
                    (seq 0 (length shape)) st1) as (? & ? & Hok).
        by rewrite Hok in Hnames. }
    intros inames st2 Hnames.
    pose proof (generated_names_always _ _ _ _ _ Hinner Hnames) as Hst2.
    apply wp_bind_run.
    2:{ intros e s3. unfold with_context.
        pose proof (to_loopy_expression_context inner
                      (prim_Variable <$> inames) (make_expression_context st2))
          as Hctx.
        destruct (to_loopy_expression _ _ _) as [[?|?] c]; [done|].
        simpl in Hctx. subst c. by intros [= _ <-]. }
    intros rendered s3 (-> & _ & _)%with_context_to_loopy_expression.
    apply wp_bind, wp_assert; intros _; [|done].
    apply wp_bind, wp_assert; [intros Hdeps%bool_decide_eq_true|done].
    apply wp_bind_run.
    2:{ intros e s4. unfold call_insn_id_gen.
        by destruct (UniqueNameGenerator_call _ _). }
    intros id st3 Hid.
    apply wp_bind, wp_gets, wp_bind, wp_modify, wp_bind, wp_modify, wp_ret.
    pose proof (call_insn_id_gen_Ok _ _ _ _ Hid) as (Hns & _).
    destruct Hst2 as [Hchain2 HI2]. destruct Hinner as [_ HI1].
    split; [simpl; by rewrite Hns|].
    assert (shape ≠ []) as Hne.
    { intros ->. by rewrite bool_decide_eq_true_2 in Hshape. }
    pose proof (I_output uid name array shape dtype st1 inames st2
                  rendered.1 id st3 HP Hne HI1 Hnames Hid) as HIo.
    unfold output_visited, copy_insn in HIo. rewrite <- Hdeps in HIo.
    exact HIo.
  - unfold map_index_lambda. apply wp_bind, wp_gets.
    destruct (results st !! uid) eqn:Hc; [done|].
    destruct Ha as [_ Hbindings%bindings_Forall]. destruct Hst as [Hchain HI].
    pose proof (LoopyExpressionGenMapper_rec_always _ IH e
                  (make_expression_context
                     (set_namespace ((bindings : Mapping) :: namespace st) st)))
      as Hbody.
    unfold wp in Hbody.
    apply wp_bind_run.
    + intros rewritten st1 (s2 & Hrun & ->)%chain_namespaces_Ok.
      apply with_context_Ok in Hrun as (Hrun & ->).
      rewrite Hrun in Hbody. simpl in Hbody.
      destruct Hbody as [Hchain' HI'].
      { split; simpl; [by constructor | by apply I_namespace]. }
      apply wp_bind, wp_modify, wp_ret. split; simpl.
      * destruct (namespace (state rewritten.2)); [done|].
        by apply Forall_cons in Hchain' as [_ ?].
      * exact (I_index_lambda uid e shape dtype bindings rewritten.1 _ HP
                 (I_namespace _ _ HI')).
    + intros exn st1. unfold chain_namespaces, with_context.
      destruct (LoopyExpressionGenMapper_rec _ e _) as [[x|exn'] context];
        [discriminate|].
      intros [= _ <-]. simpl in Hbody. apply Hbody.
      split; simpl; [by constructor | by apply I_namespace].
Qed.

(** The loop of [generate_loopy]: whether it ends or is cut short by an
    exception, the state it leaves satisfies [I]. *)
Lemma lower_namespace_always fuel ns :
  Mapping_Forall P ns → I (initial_state ns) →
  I (lower_namespace fuel ns).2.
Proof.
  intros Hns HI. unfold lower_namespace.
  assert (wp (mapM (λ kv, CodeGenMapper_rec fuel kv.2) ns)
             (λ _ st', always P I st') (initial_state ns)) as H.
  { apply (wp_mapM _ (always P I)); [|done|].
    - intros kv s0 Hkv Hs0. apply CodeGenMapper_rec_always; [|done].
      unfold Mapping_Forall in Hns. rewrite Forall_forall in Hns. by apply Hns.
    - split; [|done]. simpl. by repeat constructor. }
  by destruct H.
Qed.
End Always.

(** ** The kernel and the memory of the pass only grow *)

Lemma kernel_extends_refl st : kernel_extends st st.
Proof. by split_and!. Qed.

Lemma call_var_name_gen_run based_on st :
  ∃ name, call_var_name_gen based_on st
          = (Ok name, with_var_name_gen
                        (UniqueNameGenerator_call (var_name_gen st) based_on).2
                        st)
          ∧ name = (UniqueNameGenerator_call (var_name_gen st) based_on).1.
Proof.
  unfold call_var_name_gen.
  destruct (UniqueNameGenerator_call _ _) as [n g]. by exists n.
Qed.

(** X1: the walker only appends to the kernel.  On every exit path of a
    call, returning or raising, the arguments, the instructions and the
    domains the kernel had before the call are still there, in the same
    order, at the front of the lists. *)
Theorem walker_only_appends_to_kernel
    (fuel : nat) (a : Array) (st : CodeGenState) :
  args (kernel st) `prefix_of` args (kernel (CodeGenMapper_rec fuel a st).2)
  ∧ instructions (kernel st)
      `prefix_of` instructions (kernel (CodeGenMapper_rec fuel a st).2)
  ∧ domains (kernel st)
      `prefix_of` domains (kernel (CodeGenMapper_rec fuel a st).2).
Proof.
  pose proof (CodeGenMapper_rec_always (λ _, True) (kernel_extends st)) as H.
  unfold wp in H. apply H; clear H.
  - done.
  - intros based_on s Hs.
    by destruct (call_var_name_gen_run based_on s) as (? & -> & _).
  - intros uid name shape dtype s _ _ (Ha & Hi & Hd).
    split_and!; simpl; [by apply prefix_app_r|done|done].
  - intros uid name array shape dtype s1 inames s2 copy_expr id s3 _ _
      (Ha & Hi & Hd) Hnames Hid.
    apply generated_names in Hnames as (_ & _ & _ & _ & _ & Hk2 & _).
    apply call_insn_id_gen_Ok in Hid as (_ & Hk3 & _).
    split_and!; simpl; rewrite Hk3, Hk2; by apply prefix_app_r.
  - done.
  - by apply Array_Forall_all.
  - split; [|apply kernel_extends_refl].
    apply Forall_forall. intros m _. apply Forall_forall. intros kv _.
    by apply Array_Forall_all.
Qed.

(** X2: the pass forgets nothing.  On every exit path of a call of the
    walker, every node that was in the result cache is still in it, and both
    name generators still know every name they had handed out. *)
Theorem walker_never_forgets
    (fuel : nat) (a : Array) (st : CodeGenState) :
  dom (results st) ⊆ dom (results (CodeGenMapper_rec fuel a st).2)
  ∧ existing_names (var_name_gen st)
      ⊆ existing_names (var_name_gen (CodeGenMapper_rec fuel a st).2)
  ∧ existing_names (insn_id_gen st)
      ⊆ existing_names (insn_id_gen (CodeGenMapper_rec fuel a st).2).
Proof.
  pose proof (CodeGenMapper_rec_always (λ _, True) (memory_extends st)) as H.
  unfold wp in H. apply H; clear H.
  - done.
  - intros based_on s (Hr & Hv & Hi).
    destruct (call_var_name_gen_run based_on s) as (? & -> & _).
    pose proof (UniqueNameGenerator_call_fresh (var_name_gen s) based_on)
      as [_ Hex].
    split_and!; [done| |done].
    change (existing_names (var_name_gen st)
            ⊆ existing_names
                (UniqueNameGenerator_call (var_name_gen s) based_on).2).
    rewrite Hex. set_solver.
  - intros uid name shape dtype s _ _ (Hr & Hv & Hi).
    split_and!; simpl; [|done|done]. rewrite dom_insert_L. set_solver.
  - intros uid name array shape dtype s1 inames s2 copy_expr id s3 _ _
      (Hr & Hv & Hi) Hnames Hid.
    pose proof (call_insn_id_gen_existing _ _ _ _ Hid) as Hex3.
    apply generated_names in Hnames as (_ & _ & _ & Hex2 & _ & _ & Hr2 & Hi2).
    apply call_insn_id_gen_Ok in Hid as (_ & _ & Hr3 & Hv3 & _).
    split_and!; simpl.
    + rewrite dom_insert_L, Hr3, Hr2. set_solver.
    + rewrite Hv3, Hex2. set_solver.
    + rewrite Hex3, Hi2. set_solver.
  - intros uid e shape dtype bindings loopy_expr s _ (Hr & Hv & Hi).
    split_and!; simpl; [|done|done]. rewrite dom_insert_L. set_solver.
  - by apply Array_Forall_all.
  - split; [|by split_and!].
    apply Forall_forall. intros m _. apply Forall_forall. intros kv _.
    by apply Array_Forall_all.
Qed.

(** ** The shape of a returned program *)

Lemma generate_loopy_Ok fuel input target bp :
  generate_loopy fuel input target = Ok bp →
  program bp = kernel (lower_namespace fuel (get_namespace input)).2.
Proof.
  unfold generate_loopy.
  destruct (lower_namespace fuel (get_namespace input)) as [[rs|e] st];
    [|discriminate].
  by intros [= <-].
Qed.

Lemma Mapping_Forall_all P (m : Mapping) : (∀ n, P n) → Mapping_Forall P m.
Proof.
  intros HP. apply Forall_forall. intros kv _. by apply Array_Forall_all.
Qed.

Lemma lowering_keeps_kernel_paired fuel ns :
  kernel_paired (kernel (lower_namespace fuel ns).2).
Proof.
  apply (lower_namespace_always (λ _, True)
           (λ st, kernel_paired (kernel st))).
  - done.
  - intros based_on s Hs.
    by destruct (call_var_name_gen_run based_on s) as (? & -> & _).
  - intros uid name shape dtype s _ _ [Hd H3]. split; [done|].
    unfold output_args in *. simpl. rewrite filter_app.
    rewrite filter_cons_False, filter_nil, app_nil_r by done. done.
  - intros uid name array shape dtype s1 inames s2 copy_expr id s3 _ Hshape
      [Hd H3] Hnames Hid.
    apply generated_names in Hnames as (Hlen & _ & _ & _ & _ & Hk2 & _).
    apply call_insn_id_gen_Ok in Hid as (_ & Hk3 & _).
    rewrite length_seq in Hlen.
    unfold kernel_paired, output_args in *. simpl. rewrite Hk3, Hk2.
    split; [by destruct (domains (kernel s1))|].
    rewrite filter_app, filter_cons_True, filter_nil by done.
    replace (tail (domains (kernel s1) ++ [domain_for_shape inames shape]))
      with (tail (domains (kernel s1)) ++ [domain_for_shape inames shape])
      by (by destruct (domains (kernel s1))).
    apply Forall3_app; [done|].
    constructor; [|constructor]. by split_and!.
  - done.
  - by apply Mapping_Forall_all.
  - split; [done|]. simpl. constructor.
Qed.

(** X3: in every program [generate_loopy] returns, the output-only buffers,
    the domains after the first (the one of [make_kernel]) and the
    instructions correspond one to one, in order: each output buffer has at
    least one dimension, its domain has one loop variable per dimension with
    the extents of the buffer's shape, and its instruction assigns to the
    buffer subscripted by those loop variables and runs within exactly
    them. *)
Theorem returned_program_pairs_outputs_domains_instructions
    (fuel : nat) (input : GraphInput) (target : option Target)
    (bp : BoundProgram) :
  generate_loopy fuel input target = Ok bp →
  domains (program bp) ≠ []
  ∧ Forall3 copies_into (output_args (program bp))
      (tail (domains (program bp))) (instructions (program bp)).
Proof.
  intros ->%generate_loopy_Ok. apply lowering_keeps_kernel_paired.
Qed.

Lemma returned_program_pairs_outputs_domains_instructions_witness :
  domains (kernel (lower_namespace 5
                     (get_namespace (FromArray x10 namespace_x10))).2) ≠ []
  ∧ Forall3 copies_into
      (output_args
         (kernel (lower_namespace 5
                    (get_namespace (FromArray x10 namespace_x10))).2))
      (tail (domains
               (kernel (lower_namespace 5
                          (get_namespace (FromArray x10 namespace_x10))).2)))
      (instructions
         (kernel (lower_namespace 5
                    (get_namespace (FromArray x10 namespace_x10))).2)).
Proof.
  apply (returned_program_pairs_outputs_domains_instructions 5
           (FromArray x10 namespace_x10) None
           {| program := kernel (lower_namespace 5
                                   (get_namespace
                                      (FromArray x10 namespace_x10))).2;
              bound_arguments := [];
              target := PyOpenCLTarget |}).
  vm_compute. reflexivity.
Defined.







(** ** Promotion of named arrays to outputs *)

Lemma UniqueNameGenerator_call_existing g based_on :
  existing_names (UniqueNameGenerator_call g based_on).2
  = {[ (UniqueNameGenerator_call g based_on).1 ]} ∪ existing_names g.
Proof. apply UniqueNameGenerator_call_fresh. Qed.

Lemma promote_items_appends items :
  ∀ result name_gen next_uid,
    ∃ outs,
      promote_items items result name_gen next_uid = result ++ outs
      ∧ Forall2 wraps items outs
      ∧ NoDup outs.*1
      ∧ (∀ n, n ∈ outs.*1 → n ∉ existing_names name_gen)
      ∧ (NoDup items.*1 →
         (∀ n, n ∈ items.*1 → n ∉ existing_names name_gen) →
         outs.*1 = items.*1).
Proof.
  induction items as [|[name val] items IH]; intros result g u.
  - exists []. rewrite app_nil_r. split_and!; try done; [constructor..|].
    by intros n ?%elem_of_nil.
  - cbn [promote_items].
    pose proof (UniqueNameGenerator_call_fresh g name) as [Hnew Hex].
    pose proof (UniqueNameGenerator_call_free g name) as Hfree.
    destruct (UniqueNameGenerator_call g name) as [out_name g'].
    simpl in Hnew, Hex, Hfree.
    destruct (IH (new_Output result u out_name (copy_mapper val)) g' (S u))
      as (outs & -> & Hwraps & Hnd & Hfresh & Hkept).
    exists ((out_name,
             Output u out_name val (Array_shape val) (Array_dtype val)) :: outs).
    unfold new_Output, copy_mapper. rewrite <- app_assoc. simpl.
    split_and!.
    + done.
    + constructor; [by exists u | done].
    + constructor; [|done]. intros Hin%Hfresh. rewrite Hex in Hin. set_solver.
    + intros n [->|Hn]%elem_of_cons; [done|].
      apply Hfresh in Hn. rewrite Hex in Hn. set_solver.
    + intros [Hname Hitems]%NoDup_cons Hfree_all.
      rewrite Hfree by (apply Hfree_all; left). f_equal.
      apply Hkept; [done|]. intros n Hn. rewrite Hex.
      rewrite Hfree by (apply Hfree_all; left).
      assert (n ≠ name) by (by intros ->).
      assert (n ∉ existing_names g) by (apply Hfree_all; by right).
      set_solver.
Qed.

(** X6: promotion keeps the namespace as it is, in order, and appends one
    [Output] per entry of the mapping, in the order of the mapping: each
    wraps the entry's array, has the array's shape and dtype, and is bound in
    the namespace to the name it carries. *)
Theorem promotion_appends_one_output_per_entry (arrays : DictOfNamedArrays) :
  ∃ outs : Namespace,
    _promote_named_arrays_to_outputs arrays = arrays_namespace arrays ++ outs
    ∧ Forall2 wraps (data arrays) outs.
Proof.
  unfold _promote_named_arrays_to_outputs. rewrite copy_namespace_id.
  destruct (promote_items_appends (data arrays) (arrays_namespace arrays)
              {| existing_names := list_to_set (arrays_namespace arrays).*1 |}
              (S (Mapping_max_uid (arrays_namespace arrays)
                  `max` Mapping_max_uid (data arrays))))
    as (outs & Heq & Hwraps & _).
  by exists outs.
Qed.

(** X7: promotion keeps names unique.  When the names of the namespace are
    pairwise distinct, so are the names of the promoted namespace, whatever
    the names of the mapping are: a name that is taken is replaced by the
    unique name generator. *)
Theorem promotion_keeps_names_unique (arrays : DictOfNamedArrays) :
  NoDup (arrays_namespace arrays).*1 →
  NoDup (_promote_named_arrays_to_outputs arrays).*1.
Proof.
  intros Hns. unfold _promote_named_arrays_to_outputs.
  rewrite copy_namespace_id.
  destruct (promote_items_appends (data arrays) (arrays_namespace arrays)
              {| existing_names := list_to_set (arrays_namespace arrays).*1 |}
              (S (Mapping_max_uid (arrays_namespace arrays)
                  `max` Mapping_max_uid (data arrays))))
    as (outs & -> & _ & Hnd & Hfresh & _).
  rewrite fmap_app. apply NoDup_app. split_and!; [done| |done].
  intros n Hn Hout%Hfresh. simpl in Hout. by rewrite elem_of_list_to_set in Hout.
Qed.

Lemma promotion_keeps_names_unique_witness :
  NoDup (_promote_named_arrays_to_outputs
           {| data := [("out", placeholder_named_out)];
              arrays_namespace := namespace_with_out |}).*1.
Proof.
  apply (promotion_keeps_names_unique
           {| data := [("out", placeholder_named_out)];
              arrays_namespace := namespace_with_out |}).
  simpl. apply NoDup_singleton.
Defined.

(** X8: promotion keeps the names it is given when it can.  When the names
    of the namespace and of the mapping are all pairwise distinct, each
    output is bound to the name of its entry: the names of the promoted
    namespace are those of the namespace followed by those of the mapping. *)
Theorem promotion_keeps_free_names (arrays : DictOfNamedArrays) :
  NoDup ((arrays_namespace arrays).*1 ++ (data arrays).*1) →
  (_promote_named_arrays_to_outputs arrays).*1
  = (arrays_namespace arrays).*1 ++ (data arrays).*1.
Proof.
  intros (Hns & Hdisj & Hdata)%NoDup_app.
  unfold _promote_named_arrays_to_outputs. rewrite copy_namespace_id.
  destruct (promote_items_appends (data arrays) (arrays_namespace arrays)
              {| existing_names := list_to_set (arrays_namespace arrays).*1 |}
              (S (Mapping_max_uid (arrays_namespace arrays)
                  `max` Mapping_max_uid (data arrays))))
    as (outs & -> & _ & _ & _ & Hkept).
  rewrite fmap_app. f_equal. apply Hkept; [done|].
  intros n Hn. simpl. rewrite elem_of_list_to_set. intros Hin.
  by apply (Hdisj n).
Qed.

Lemma promotion_keeps_free_names_witness :
  (_promote_named_arrays_to_outputs
     {| data := [("out", x10)]; arrays_namespace := namespace_x10 |}).*1
  = namespace_x10.*1 ++ [("out", x10)].*1.
Proof.
  apply (promotion_keeps_free_names
           {| data := [("out", x10)]; arrays_namespace := namespace_x10 |}).
  vm_compute. repeat constructor; set_solver.
Defined.

(** ** More on rendering *)

(** X9: rendering an expression result never fails on the number of indices.
    Only the indices of the result's own dimensions are used: the rendering
    is the stored expression with the placeholder of each dimension that has
    an index replaced by it, so indices beyond the dimensions are ignored and
    the placeholders of dimensions without an index stay. *)
Theorem rendering_uses_indices_of_own_dimensions
    (expr : ScalarExpression) (shape dtype : PyObject)
    (indices : SymbolicIndex) (context : LoopyExpressionContext) :
  to_loopy_expression (LoopyExpressionResult expr shape dtype) indices context
  = (Ok (substitute_dims (take (len shape) indices) expr), context)
  ∧ to_loopy_expression (LoopyExpressionResult expr shape dtype)
      (take (len shape) indices) context
    = to_loopy_expression (LoopyExpressionResult expr shape dtype)
        indices context.
Proof.
  unfold to_loopy_expression, ret, ndim. simpl.
  rewrite !substitute_as_substitute_dims. by rewrite take_take, Nat.min_id.
Qed.

Lemma index_for_own_placeholder name d n :
  default (prim_Variable name)
    (index_for name d ((λ d, prim_Variable (dim_placeholder d)) <$> seq d n))
  = prim_Variable name.
Proof.
  revert d. induction n as [|n IH]; intros d; simpl; [done|].
  case_bool_decide as Heq; [by rewrite Heq | apply IH].
Qed.

Lemma substitute_dims_own_placeholders n expr :
  substitute_dims (own_placeholders n) expr = expr.
Proof.
  unfold own_placeholders.
  induction expr as [z|name|a idx IHa IHidx|cs IH|cs IH]
    using ScalarExpression_deep_ind; simpl.
  - done.
  - apply index_for_own_placeholder.
  - rewrite IHa. f_equal.
    rewrite (map_ext_Forall_eq _ id) by done. apply List.map_id.
  - f_equal. rewrite (map_ext_Forall_eq _ id) by done. apply List.map_id.
  - f_equal. rewrite (map_ext_Forall_eq _ id) by done. apply List.map_id.
Qed.

(** X10: rendering an expression result at its own placeholder variables
    gives the stored expression back, whatever their number. *)
Theorem rendering_at_own_placeholders_is_identity
    (expr : ScalarExpression) (shape dtype : PyObject) (n : nat)
    (context : LoopyExpressionContext) :
  to_loopy_expression (LoopyExpressionResult expr shape dtype)
    (own_placeholders n) context
  = (Ok expr, context).
Proof.
  unfold to_loopy_expression, ret, ndim. simpl.
  rewrite substitute_as_substitute_dims.
  unfold own_placeholders. rewrite <- fmap_take, take_seq.
  by rewrite (substitute_dims_own_placeholders (len shape `min` n)).
Qed.

(** ** References of the rewriter *)

(** X11: a reference to a name that no scope of the chain binds raises
    [KeyError] with that name, for a bare variable and for a subscript alike,
    before anything is lowered: the context and the state behind it are as
    they were. *)
Theorem unresolved_reference_raises_KeyError
    (fuel : nat) (name : string) (context : LoopyExpressionContext) :
  ChainMap_get (namespace (state context)) name = None →
  LoopyExpressionGenMapper_call fuel (prim_Variable name) context
    = (Raise (KeyError name), context)
  ∧ ∀ index : SymbolicIndex,
      LoopyExpressionGenMapper_call fuel
        (prim_Subscript (prim_Variable name) index) context
      = (Raise (KeyError name), context).
Proof.
  intros Hget. unfold LoopyExpressionGenMapper_call. simpl.
  unfold bind, namespace_getitem. by rewrite Hget.
Qed.

Lemma unresolved_reference_raises_KeyError_witness :
  LoopyExpressionGenMapper_call 3 (prim_Variable "z")
    (make_expression_context (initial_state namespace_x10))
    = (Raise (KeyError "z"), make_expression_context (initial_state namespace_x10))
  ∧ ∀ index : SymbolicIndex,
      LoopyExpressionGenMapper_call 3
        (prim_Subscript (prim_Variable "z") index)
        (make_expression_context (initial_state namespace_x10))
      = (Raise (KeyError "z"),
         make_expression_context (initial_state namespace_x10)).
Proof.
  apply (unresolved_reference_raises_KeyError 3 "z"
           (make_expression_context (initial_state namespace_x10))).
  reflexivity.
Defined.

(** X12: an index lambda whose body refers, by a name of its bindings, to a
    placeholder not lowered before.  The first visit lowers the placeholder
    and caches for the lambda the reference to the placeholder's buffer: the
    variable is the name of the placeholder, not the name it is bound to, and
    the index expressions of a subscript are taken over as they are.  The
    state is the one after the first visit of the placeholder, with the
    lambda's result cached and the namespace chain restored. *)
Theorem index_lambda_refers_to_placeholder_buffer
    (fuel uid pu : nat) (n pn : string) (shape ps : ShapeType)
    (dtype pd : np_dtype) (bindings : Mapping) (st : CodeGenState) :
  results st !! uid = None →
  results st !! pu = None →
  Mapping_get bindings n = Some (Placeholder pu pn ps pd) →
  CodeGenMapper_rec (S (S fuel))
    (IndexLambda uid (prim_Variable n) shape dtype bindings) st
  = (Ok (LoopyExpressionResult (prim_Variable pn)
           (PyTuple shape) (PyDtype dtype)),
     index_lambda_visited uid (prim_Variable pn) shape dtype
       (placeholder_visited pu pn ps pd st))
  ∧ ∀ (i : ScalarExpression) (index : SymbolicIndex),
      CodeGenMapper_rec (S (S fuel))
        (IndexLambda uid (prim_Subscript (prim_Variable n) (i :: index))
           shape dtype bindings) st
      = (Ok (LoopyExpressionResult
               (prim_Subscript (prim_Variable pn) (i :: index))
               (PyTuple shape) (PyDtype dtype)),
         index_lambda_visited uid
           (prim_Subscript (prim_Variable pn) (i :: index)) shape dtype
           (placeholder_visited pu pn ps pd st)).
Proof.
  intros Hfresh Hp Hget.
  assert (∀ index,
            (let* node := namespace_getitem n in
             let* result := on_state (CodeGenMapper_rec (S fuel) node) in
             to_loopy_expression result index)
              (make_expression_context
                 (set_namespace (bindings :: namespace st) st))
            = to_loopy_expression
                (ArrayResult pn (PyDtype pd) (PyTuple ps)) index
                (make_expression_context
                   (placeholder_visited pu pn ps pd
                      (set_namespace (bindings :: namespace st) st))))
    as Href.
  { intros index. unfold bind at 1, namespace_getitem. simpl. rewrite Hget.
    unfold bind, on_state. simpl.
    by rewrite map_placeholder_first_visit by done. }
  split; [|intros i index].
  - change (CodeGenMapper_rec (S (S fuel))
              (IndexLambda uid (prim_Variable n) shape dtype bindings) st)
      with (map_index_lambda (CodeGenMapper_rec (S fuel)) uid
              (prim_Variable n) shape dtype bindings st).
    unfold map_index_lambda. unfold bind at 1, gets. cbv beta. rewrite Hfresh.
    unfold bind at 1, chain_namespaces, with_context.
    cbn [LoopyExpressionGenMapper_rec]. rewrite Href.
    unfold to_loopy_expression, ret, bind, results_setitem, modify. simpl.
    by destruct st.
  - change (CodeGenMapper_rec (S (S fuel))
              (IndexLambda uid (prim_Subscript (prim_Variable n) (i :: index))
                 shape dtype bindings) st)
      with (map_index_lambda (CodeGenMapper_rec (S fuel)) uid
              (prim_Subscript (prim_Variable n) (i :: index))
              shape dtype bindings st).
    unfold map_index_lambda. unfold bind at 1, gets. cbv beta. rewrite Hfresh.
    unfold bind at 1, chain_namespaces, with_context.
    cbn [LoopyExpressionGenMapper_rec]. rewrite Href.
    unfold to_loopy_expression, ret, bind, results_setitem, modify. simpl.
    by destruct st.
Qed.

Lemma index_lambda_refers_to_placeholder_buffer_witness :
  CodeGenMapper_rec 2
    (IndexLambda 3 (prim_Variable "a") [prim_Const 5] float64 two_placeholders)
    (initial_state [])
  = (Ok (LoopyExpressionResult (prim_Variable "a")
           (PyTuple [prim_Const 5]) (PyDtype float64)),
     index_lambda_visited 3 (prim_Variable "a") [prim_Const 5] float64
       (placeholder_visited 1 "a" [prim_Const 5] float64 (initial_state [])))
  ∧ ∀ (i : ScalarExpression) (index : SymbolicIndex),
      CodeGenMapper_rec 2
        (IndexLambda 3 (prim_Subscript (prim_Variable "a") (i :: index))
           [prim_Const 5] float64 two_placeholders) (initial_state [])
      = (Ok (LoopyExpressionResult
               (prim_Subscript (prim_Variable "a") (i :: index))
               (PyTuple [prim_Const 5]) (PyDtype float64)),
         index_lambda_visited 3
           (prim_Subscript (prim_Variable "a") (i :: index))
           [prim_Const 5] float64
           (placeholder_visited 1 "a" [prim_Const 5] float64
              (initial_state []))).
Proof.
  apply (index_lambda_refers_to_placeholder_buffer 0 3 1 "a" "a"
           [prim_Const 5] [prim_Const 5] float64 float64 two_placeholders
           (initial_state [])); reflexivity.
Defined.

(** ** An output over an index lambda *)

(** X13: an output over an index lambda inlines the lambda.  When both are
    visited for the first time, the instruction of the output is the last of
    the kernel, after whatever the rewrite of the lambda's body added, and its
    right-hand side is the rewritten body with the placeholder of each
    dimension of the lambda replaced by the loop variable of that dimension of
    the output. *)
Theorem output_inlines_index_lambda
    (fuel uo ul : nat) (name : string) (e : ScalarExpression)
    (lshape shape : ShapeType) (ldtype dtype : np_dtype) (bindings : Mapping)
    (st st' : CodeGenState) (r : GeneratedResult) :
  results st !! uo = None →
  results st !! ul = None →
  CodeGenMapper_rec (S (S fuel))
    (Output uo name (IndexLambda ul e lshape ldtype bindings) shape dtype) st
    = (Ok r, st') →
  ∃ (loopy_expr : ScalarExpression) (context : LoopyExpressionContext)
    (inames : list string) (id : string),
    LoopyExpressionGenMapper_call fuel e
      (make_expression_context (set_namespace (bindings :: namespace st) st))
    = (Ok loopy_expr, context)
    ∧ length inames = length shape
    ∧ instructions (kernel st')
      = instructions (kernel (state context))
        ++ [copy_insn name inames
              (substitute_dims
                 (take (length lshape) (prim_Variable <$> inames)) loopy_expr)
              id].
Proof.
  intros Ho Hl Hrun.
  change (map_output (CodeGenMapper_rec (S fuel)) uo name
            (IndexLambda ul e lshape ldtype bindings) shape dtype st
          = (Ok r, st')) in Hrun.
  apply map_output_first_visit in Hrun
    as (inner & st1 & inames & st2 & copy_expr & id & st3 & _ & Hinner
        & Hinames & Hrender & Hid & _ & ->); [|done].
  change (map_index_lambda (CodeGenMapper_rec fuel) ul e lshape ldtype
            bindings st = (Ok inner, st1)) in Hinner.
  apply map_index_lambda_first_visit in Hinner
    as (loopy_expr & context & Hbody & -> & ->); [|done].
  apply generated_names in Hinames as (Hlen & _ & _ & _ & _ & Hk2 & _).
  apply call_insn_id_gen_Ok in Hid as (_ & Hk3 & _).
  rewrite length_seq in Hlen.
  exists loopy_expr, context, inames, id. split_and!; [done..|].
  simpl. rewrite Hk3, Hk2. simpl. do 2 f_equal.
  unfold to_loopy_expression, ret, ndim in Hrender. simpl in Hrender.
  rewrite substitute_as_substitute_dims in Hrender. by injection Hrender as <-.
Qed.

Lemma output_inlines_index_lambda_witness :
  ∃ (loopy_expr : ScalarExpression) (context : LoopyExpressionContext)
    (inames : list string) (id : string),
    LoopyExpressionGenMapper_call 1 sum_of_a_and_b
      (make_expression_context
         (set_namespace (two_placeholders :: namespace (initial_state []))
            (initial_state [])))
    = (Ok loopy_expr, context)
    ∧ length inames = length [prim_Const 5]
    ∧ instructions (kernel (CodeGenMapper_rec 3 out_a_plus_b
                              (initial_state [])).2)
      = instructions (kernel (state context))
        ++ [copy_insn "out" inames
              (substitute_dims
                 (take (length [prim_Const 5]) (prim_Variable <$> inames))
                 loopy_expr)
              id].
Proof.
  apply (output_inlines_index_lambda 1 4 3 "out" sum_of_a_and_b
           [prim_Const 5] [prim_Const 5] float64 float64 two_placeholders
           (initial_state [])
           (CodeGenMapper_rec 3 out_a_plus_b (initial_state [])).2
           (ArrayResult "out" (PyDtype float64) (PyTuple [prim_Const 5]))).
  - reflexivity.
  - reflexivity.
  - vm_compute. reflexivity.
Defined.

(** ** The namespace chain *)

(** X14: every call of the walker that returns, for any node and at any
    depth of nested index lambdas, leaves the namespace chain exactly as it
    found it. *)
Theorem returning_call_restores_namespace_chain
    (fuel : nat) (a : Array) (st st' : CodeGenState) (r : GeneratedResult) :
  CodeGenMapper_rec fuel a st = (Ok r, st') →
  namespace st' = namespace st.
Proof. apply chain_balanced. Qed.

Lemma returning_call_restores_namespace_chain_witness :
  namespace (CodeGenMapper_rec 3 out_a_plus_b (initial_state namespace_x10)).2
  = namespace (initial_state namespace_x10).
Proof.
  apply (returning_call_restores_namespace_chain 3 out_a_plus_b
           (initial_state namespace_x10)
           (CodeGenMapper_rec 3 out_a_plus_b (initial_state namespace_x10)).2
           (ArrayResult "out" (PyDtype float64) (PyTuple [prim_Const 5]))).
  vm_compute. reflexivity.
Defined.

(** X15: on no exit path does a call of the walker remove or replace a scope
    that was in the chain before it: the chain afterwards ends with the chain
    before, whether the call returns or raises. *)
Theorem walker_keeps_outer_scopes
    (fuel : nat) (a : Array) (st : CodeGenState) :
  ∃ extra : list Mapping,
    namespace (CodeGenMapper_rec fuel a st).2 = extra ++ namespace st.
Proof. apply (CodeGenMapper_rec_grows fuel a st). Qed.

(** ** Whole programs *)

Lemma generated_names_free (f : nat → string) l :
  ∀ st inames st',
    mapM (λ d, call_var_name_gen (f d)) l st = (Ok inames, st') →
    NoDup (f <$> l) →
    (∀ d, d ∈ l → f d ∉ existing_names (var_name_gen st)) →
    inames = f <$> l.
Proof.
  induction l as [|d l IH]; intros st inames st' Hrun Hnd Hfree.
  - by injection Hrun as <- <-.
  - rewrite mapM_cons in Hrun.
    apply bind_Ok in Hrun as (i & st1 & Hi & Hrun).
    apply bind_Ok in Hrun as (rest & st2 & Hrest & Hrun).
    injection Hrun as <- <-.
    rewrite fmap_cons in Hnd. apply NoDup_cons in Hnd as [Hd Hnd].
    unfold call_var_name_gen in Hi.
    pose proof (UniqueNameGenerator_call_free (var_name_gen st) (f d))
      as Hname.
    pose proof (UniqueNameGenerator_call_existing (var_name_gen st) (f d))
      as Hex.
    destruct (UniqueNameGenerator_call (var_name_gen st) (f d)) as [n g].
    injection Hi as <- <-. cbn [fst snd] in Hname, Hex.
    rewrite Hname in * by (apply Hfree; left).
    rewrite fmap_cons. f_equal.
    apply (IH _ _ _ Hrest Hnd). intros d' Hd'.
    change (f d' ∉ existing_names g). rewrite Hex.
    assert (f d' ≠ f d).
    { intros Heq. apply Hd. rewrite <- Heq. by apply list_elem_of_fmap_2. }
    assert (f d' ∉ existing_names (var_name_gen st)) by (apply Hfree; by right).
    set_solver.
Qed.

Lemma dim_names_of_NoDup name n : NoDup (dim_names_of name n).
Proof.
  unfold dim_names_of. apply NoDup_fmap_2; [|apply NoDup_seq].
  intros d d' H.
  apply (inj (String.app name)), (inj (String.app "_dim")) in H.
  by apply (inj pretty) in H.
Qed.

(** A first visit of an output runs as [map_output_first_visit] describes
    whenever its steps do. *)
Lemma map_output_first_visit_Ok rec uid name array shape dtype st inner st1
    inames st2 copy_expr id st3 :
  results st !! uid = None →
  shape ≠ [] →
  rec array st = (Ok inner, st1) →
  mapM (λ d, call_var_name_gen (name +:+ "_dim" +:+ pretty d))
    (seq 0 (length shape)) st1 = (Ok inames, st2) →
  to_loopy_expression inner (prim_Variable <$> inames)
    (make_expression_context st2)
  = (Ok copy_expr, make_expression_context st2) →
  call_insn_id_gen (name +:+ "_copy") st2 = (Ok id, st3) →
  map_output rec uid name array shape dtype st
  = (Ok (ArrayResult name (PyDtype dtype) (PyTuple shape)),
     output_visited uid name shape dtype inames copy_expr id st3).
Proof.
  intros Hfresh Hshape Hinner Hinames Hrender Hid. unfold map_output.
  eapply bind_Ok_intro; [reflexivity|]. cbv beta. rewrite Hfresh.
  eapply bind_Ok_intro.
  { unfold assert. rewrite bool_decide_eq_false_2; [reflexivity|].
    by destruct shape. }
  eapply bind_Ok_intro; [exact Hinner|].
  eapply bind_Ok_intro; [exact Hinames|].
  eapply bind_Ok_intro; [unfold with_context; by rewrite Hrender|].
  eapply bind_Ok_intro; [reflexivity|].
  eapply bind_Ok_intro; [reflexivity|].
  eapply bind_Ok_intro; [exact Hid|].
  reflexivity.
Qed.

(** X16: a namespace of a placeholder and an output over it, visited in that
    order.  For every name, dtype and non-empty shape, [generate_loopy]
    returns the program with the placeholder's input buffer and the output's
    output-only buffer; with the domain of [make_kernel] and one domain whose
    loop variables are the output's name followed by [_dim0], [_dim1], ...,
    one per dimension, with the output's shape as extents; and with the one
    instruction, named after the output with [_copy], that assigns the
    placeholder's buffer to the output's buffer, both subscripted by those
    loop variables. *)
Theorem output_of_placeholder_program
    (fuel pu ou : nat) (key1 key2 pn on : string) (ps os : ShapeType)
    (pd od : np_dtype) (target : option Target) :
  pu ≠ ou →
  os ≠ [] →
  generate_loopy (S (S fuel))
    (FromNamespace
       [(key1, Placeholder pu pn ps pd);
        (key2, Output ou on (Placeholder pu pn ps pd) os od)])
    target
  = Ok {| program :=
            {| args := [ {| arg_name := pn; arg_shape := ps; arg_dtype := pd;
                            arg_order := "C"; is_output_only := false |};
                         {| arg_name := on; arg_shape := os; arg_dtype := od;
                            arg_order := "C"; is_output_only := true |} ];
               instructions :=
                 [ {| insn_assignees :=
                        [prim_Subscript (prim_Variable on)
                           (prim_Variable <$> dim_names_of on (length os))];
                      insn_expression :=
                        prim_Subscript (prim_Variable pn)
                          (prim_Variable <$> dim_names_of on (length os));
                      insn_id := on +:+ "_copy";
                      insn_within_inames :=
                        list_to_set (dim_names_of on (length os));
                      insn_depends_on := ∅ |} ];
               domains :=
                 [ {| dim_names := []; dim_extents := [] |};
                   {| dim_names := dim_names_of on (length os);
                      dim_extents := os |} ] |};
          bound_arguments := [];
          target := default PyOpenCLTarget target |}.
Proof.
  intros Hne Hos.
  set (P := Placeholder pu pn ps pd).
  set (ns := [(key1, P); (key2, Output ou on P os od)]).
  set (s1 := placeholder_visited pu pn ps pd (initial_state ns)).
  assert (CodeGenMapper_rec (S (S fuel)) P (initial_state ns)
          = (Ok (ArrayResult pn (PyDtype pd) (PyTuple ps)), s1)) as HP.
  { apply map_placeholder_first_visit. apply lookup_empty. }
  assert (results s1 !! ou = None) as Hou.
  { simpl. by rewrite lookup_insert_ne, lookup_empty. }
  assert (CodeGenMapper_rec (S fuel) P s1
          = (Ok (ArrayResult pn (PyDtype pd) (PyTuple ps)), s1)) as Hinner.
  { apply cached_node_returned; [done|]. simpl. apply lookup_insert_eq. }
  destruct (generated_names_Ok (λ d, on +:+ "_dim" +:+ pretty d)
              (seq 0 (length os)) s1) as (inames & s2 & Hnames).
  pose proof (generated_names _ _ _ _ _ Hnames)
    as (_ & _ & _ & _ & _ & Hk2 & _ & Hg2).
  assert (inames = dim_names_of on (length os)) as ->.
  { apply (generated_names_free _ _ _ _ _ Hnames).
    - apply dim_names_of_NoDup.
    - intros d _. simpl. set_solver. }
  destruct (call_insn_id_gen (on +:+ "_copy") s2) as [rid s3] eqn:Hid.
  assert (rid = Ok (on +:+ "_copy") ∧ kernel s3 = kernel s2) as [-> Hk3].
  { unfold call_insn_id_gen in Hid.
    pose proof (UniqueNameGenerator_call_free (insn_id_gen s2)
                  (on +:+ "_copy")) as Hfree.
    destruct (UniqueNameGenerator_call _ _) as [n g].
    injection Hid as <- <-. split; [|done]. f_equal. apply Hfree.
    rewrite Hg2. simpl. set_solver. }
  assert (CodeGenMapper_rec (S (S fuel)) (Output ou on P os od) s1
          = (Ok (ArrayResult on (PyDtype od) (PyTuple os)),
             output_visited ou on os od (dim_names_of on (length os))
               (prim_Subscript (prim_Variable pn)
                  (prim_Variable <$> dim_names_of on (length os)))
               (on +:+ "_copy") s3)) as HO.
  { cbn [CodeGenMapper_rec].
    eapply map_output_first_visit_Ok;
      [exact Hou|exact Hos|exact Hinner|exact Hnames| |exact Hid].
    unfold dim_names_of. destruct os as [|o os']; [done|]. reflexivity. }
  unfold generate_loopy, lower_namespace.
  change (get_namespace (FromNamespace ns)) with ns.
  assert (mapM (λ kv : string * Array, CodeGenMapper_rec (S (S fuel)) kv.2)
            ns (initial_state ns)
          = (Ok [ArrayResult pn (PyDtype pd) (PyTuple ps);
                 ArrayResult on (PyDtype od) (PyTuple os)],
             output_visited ou on os od (dim_names_of on (length os))
               (prim_Subscript (prim_Variable pn)
                  (prim_Variable <$> dim_names_of on (length os)))
               (on +:+ "_copy") s3)) as ->.
  { unfold ns at 1. rewrite mapM_cons.
    eapply bind_Ok_intro; [exact HP|].
    eapply bind_Ok_intro; [|reflexivity]. rewrite mapM_cons.
    eapply bind_Ok_intro; [exact HO|]. reflexivity. }
  simpl. rewrite Hk3, Hk2. reflexivity.
Qed.

Lemma output_of_placeholder_program_witness :
  generate_loopy 2 (FromNamespace [("x", x10); ("out", out_x10)]) None
  = Ok {| program :=
            {| args := [ {| arg_name := "x"; arg_shape := [prim_Const 10];
                            arg_dtype := float64;
                            arg_order := "C"; is_output_only := false |};
                         {| arg_name := "out"; arg_shape := [prim_Const 10];
                            arg_dtype := float64;
                            arg_order := "C"; is_output_only := true |} ];
               instructions :=
                 [ {| insn_assignees :=
                        [prim_Subscript (prim_Variable "out")
                           (prim_Variable <$>
                            dim_names_of "out" (length [prim_Const 10]))];
                      insn_expression :=
                        prim_Subscript (prim_Variable "x")
                          (prim_Variable <$>
                           dim_names_of "out" (length [prim_Const 10]));
                      insn_id := "out" +:+ "_copy";
                      insn_within_inames :=
                        list_to_set
                          (dim_names_of "out" (length [prim_Const 10]));
                      insn_depends_on := ∅ |} ];
               domains :=
                 [ {| dim_names := []; dim_extents := [] |};
                   {| dim_names := dim_names_of "out" (length [prim_Const 10]);
                      dim_extents := [prim_Const 10] |} ] |};
          bound_arguments := [];
          target := default PyOpenCLTarget None |}.
Proof.
  apply (output_of_placeholder_program 0 1 2 "x" "out" "x" "out"
           [prim_Const 10] [prim_Const 10] float64 float64 None).
  - lia.
  - discriminate.
Defined.

Lemma lower_placeholders fuel (ns : Mapping) :
  ∀ st,
    Forall (λ kv, is_Placeholder kv.2) ns →
    NoDup (Array_uid <$> ns.*2) →
    (∀ u, u ∈ Array_uid <$> ns.*2 → results st !! u = None) →
    ∃ rs st',
      mapM (λ kv : string * Array, CodeGenMapper_rec (S fuel) kv.2) ns st
      = (Ok rs, st')
      ∧ kernel st'
        = {| args := args (kernel st) ++ (input_arg <$> ns.*2);
             instructions := instructions (kernel st);
             domains := domains (kernel st) |}.
Proof.
  induction ns as [|[key a] ns IH]; intros st Hall Hnd Hfresh.
  - exists [], st. split; [done|]. simpl. rewrite app_nil_r.
    by destruct (kernel st).
  - apply Forall_cons in Hall as [Ha Hall].
    rewrite !fmap_cons in Hnd, Hfresh. apply NoDup_cons in Hnd as [Hu Hnd].
    destruct a as [uid name shape dtype| | |]; try done. simpl in Hu.
    destruct (IH (placeholder_visited uid name shape dtype st) Hall Hnd)
      as (rs & st' & Hrun & Hk).
    { intros u Hin. simpl. rewrite lookup_insert_ne by (by intros ->).
      apply Hfresh. by right. }
    exists (ArrayResult name (PyDtype dtype) (PyTuple shape) :: rs), st'.
    split.
    + rewrite mapM_cons. eapply bind_Ok_intro.
      { apply map_placeholder_first_visit. apply Hfresh. by left. }
      eapply bind_Ok_intro; [exact Hrun|reflexivity].
    + rewrite Hk. simpl. by rewrite <- app_assoc.
Qed.

(** X17: a namespace of placeholders, pairwise distinct nodes.  The pass
    cannot fail: [generate_loopy] returns the program with one input buffer
    per placeholder, in the order of the namespace and with the placeholder's
    own name, shape and dtype, with no instruction and with no domain but the
    one of [make_kernel]. *)
Theorem placeholders_become_input_buffers
    (fuel : nat) (ns : Namespace) (target : option Target) :
  Forall (λ kv, is_Placeholder kv.2) ns →
  NoDup (Array_uid <$> ns.*2) →
  generate_loopy (S fuel) (FromNamespace ns) target
  = Ok {| program :=
            {| args := input_arg <$> ns.*2;
               instructions := [];
               domains := [ {| dim_names := []; dim_extents := [] |} ] |};
          bound_arguments := [];
          target := default PyOpenCLTarget target |}.
Proof.
  intros Hall Hnd. unfold generate_loopy, lower_namespace.
  change (get_namespace (FromNamespace ns)) with ns.
  destruct (lower_placeholders fuel ns (initial_state ns) Hall Hnd)
    as (rs & st' & -> & Hk).
  { intros u _. apply lookup_empty. }
  by rewrite Hk.
Qed.

Lemma placeholders_become_input_buffers_witness :
  generate_loopy 1 (FromNamespace two_placeholders) None
  = Ok {| program :=
            {| args := input_arg <$> two_placeholders.*2;
               instructions := [];
               domains := [ {| dim_names := []; dim_extents := [] |} ] |};
          bound_arguments := [];
          target := default PyOpenCLTarget None |}.
Proof.
  apply (placeholders_become_input_buffers 0 two_placeholders None).
  - repeat constructor.
  - vm_compute. repeat constructor; set_solver.
Defined.




(** X19: the result cached for an output holds the node's dtype in its
    [shape] attribute and the node's shape in its [dtype] attribute, as the
    result of a placeholder does: [map_output] passes them to [ArrayResult]
    in that order.  The number of dimensions such a result reports is the
    length of the dtype. *)
Theorem output_result_has_shape_and_dtype_exchanged
    (fuel uid : nat) (name : string) (array : Array) (shape : ShapeType)
    (dtype : np_dtype) (st st' : CodeGenState) (r : GeneratedResult) :
  results st !! uid = None →
  CodeGenMapper_rec (S fuel) (Output uid name array shape dtype) st
    = (Ok r, st') →
  r = ArrayResult name (PyDtype dtype) (PyTuple shape)
  ∧ results st' !! uid = Some r
  ∧ GeneratedResult_shape r = PyDtype dtype
  ∧ GeneratedResult_dtype r = PyTuple shape
  ∧ ndim r = dtype_nfields dtype.
Proof.
  intros Hfresh Hrun. cbn [CodeGenMapper_rec] in Hrun.
  apply map_output_first_visit in Hrun
    as (inner & st1 & inames & st2 & copy_expr & id & st3 & _ & _ & _ & _ & _
        & -> & ->); [|done].
  split_and!; try done. simpl. apply lookup_insert_eq.
Qed.

Lemma output_result_has_shape_and_dtype_exchanged_witness :
  ArrayResult "out" (PyDtype float64) (PyTuple [prim_Const 10])
  = ArrayResult "out" (PyDtype float64) (PyTuple [prim_Const 10])
  ∧ results (CodeGenMapper_rec 2 out_x10 (initial_state [])).2 !! 2
    = Some (ArrayResult "out" (PyDtype float64) (PyTuple [prim_Const 10]))
  ∧ GeneratedResult_shape
      (ArrayResult "out" (PyDtype float64) (PyTuple [prim_Const 10]))
    = PyDtype float64
  ∧ GeneratedResult_dtype
      (ArrayResult "out" (PyDtype float64) (PyTuple [prim_Const 10]))
    = PyTuple [prim_Const 10]
  ∧ ndim (ArrayResult "out" (PyDtype float64) (PyTuple [prim_Const 10]))
    = dtype_nfields float64.
Proof.
  apply (output_result_has_shape_and_dtype_exchanged 1 2 "out" x10
           [prim_Const 10] float64 (initial_state [])
           (CodeGenMapper_rec 2 out_x10 (initial_state [])).2
           (ArrayResult "out" (PyDtype float64) (PyTuple [prim_Const 10]))).
  - reflexivity.
  - vm_compute. reflexivity.
Defined.
